(** * Middleware helpers and the database connection cache

    A shallow embedding of [utils/dbConnection.js], the performance
    utilities and the handler wrappers, with the properties the written
    specification states about them.

    Conventions.
    - A JavaScript string is a [string]: one [ascii] per code unit, which
      covers the strings whose code units lie in the Latin-1 range.
    - A JavaScript number is an IEEE-754 binary64 value, taken from the
      Standard Library's reference model [spec_float] with precision 53
      and maximal exponent 1024.
    - The web framework and the database driver are external: the response
      object is modelled by the state the calls on it leave behind, the
      driver by abstract operations on an abstract driver state.
    - An [await] is sequential: nothing else runs between the start and
      the end of a modelled call. Time is a logical clock in milliseconds.
    - Loops that may not end take fuel and return [None] when it runs
      out. *)

From Stdlib Require Import ZArith Ascii String List Bool Lia.
From Stdlib Require Import SpecFloat.
From stdpp Require Import base option list sorting strings gmap pretty.

Local Open Scope string_scope.
Local Open Scope Z_scope.

#[local] Arguments String.append !_ _ : simpl nomatch.

(** ** JavaScript numbers *)

Module Num.

Abbreviation Number := spec_float.

Definition prec : Z := 53.
Definition emax : Z := 1024.

Definition NaN : Number := S754_nan.
Definition Infinity : Number := S754_infinity false.

(** The number value of a mathematical integer (round to nearest, ties
    to even); [neg_zero] tells which zero an integer 0 becomes. *)
Definition of_Z_signed (neg_zero : bool) (z : Z) : Number :=
  binary_normalize prec emax z 0 neg_zero.

Definition of_Z (z : Z) : Number := of_Z_signed false z.

(** The number value of the rational [n / d], [0 <= n], [0 < d], with
    sign [s]: the quotient is computed with a rounding location as the
    reference division does, then rounded once. *)
Definition of_ratio (s : bool) (n : N) (d : positive) : Number :=
  match n with
  | N0 => S754_zero s
  | Npos p =>
      let '(q, e, l) := SFdiv_core_binary prec emax (Zpos p) 0 (Zpos d) 0 in
      binary_round_aux prec emax s q e l
  end.

(** IEEE multiplication, [x * y]. *)
Definition mul (x y : Number) : Number := SFmul prec emax x y.

(** [x > y] *)
Definition gt (x y : Number) : bool := SFltb y x.

(** ToBoolean on a number: false for NaN, +0 and -0. *)
Definition truthy (x : Number) : bool :=
  match x with
  | S754_nan | S754_zero _ => false
  | _ => true
  end.

(** Math.floor: NaN, the infinities and the zeros are returned as they
    are; a finite [±m·2^e] with [e >= 0] is an integer already; otherwise
    the integer part is [floor (±m / 2^-e)], which needs no rounding. *)
Definition floor (x : Number) : Number :=
  match x with
  | S754_finite s m e =>
      if 0 <=? e then x
      else of_Z (Z.shiftr (cond_Zopp s (Zpos m)) (- e))
  | _ => x
  end.

(** A number that is neither a negative finite value nor -Infinity. *)
Definition not_negative (x : Number) : bool :=
  match x with
  | S754_infinity true | S754_finite true _ _ => false
  | _ => true
  end.

End Num.

Import Num.

(** ** JavaScript strings *)

Module Str.

Definition code (c : ascii) : N := N_of_ascii c.

Definition is_digit (c : ascii) : bool :=
  ((48 <=? code c) && (code c <=? 57))%N.

(** Value of a decimal digit. *)
Definition digit_value (c : ascii) : N := (code c - 48)%N.

(** [\s] of a regular expression, and the blanks that parseInt and
    parseFloat skip: tab, line feed, vertical tab, form feed, carriage
    return, space and no-break space. *)
Definition is_space (c : ascii) : bool :=
  let n := code c in
  ((9 <=? n) && (n <=? 13) || (n =? 32) || (n =? 160))%N.

(** String.prototype.toLowerCase, one code unit at a time: A-Z and the
    Latin-1 capitals À-Þ (the multiplication sign apart) move by 32. *)
Definition lower_char (c : ascii) : ascii :=
  let n := code c in
  if ((65 <=? n) && (n <=? 90))%N then ascii_of_N (n + 32)
  else if ((192 <=? n) && (n <=? 222) && negb (n =? 215))%N
       then ascii_of_N (n + 32)
  else c.

Fixpoint toLowerCase (s : string) : string :=
  match s with
  | EmptyString => EmptyString
  | String c s' => String (lower_char c) (toLowerCase s')
  end.

(** Longest prefix whose characters satisfy [p], and the rest. *)
Fixpoint span (p : ascii -> bool) (s : string) : string * string :=
  match s with
  | EmptyString => (EmptyString, EmptyString)
  | String c s' =>
      if p c then let '(a, b) := span p s' in (String c a, b)
      else (EmptyString, s)
  end.

Definition trimStart (s : string) : string := snd (span is_space s).

(** String.prototype.startsWith *)
Definition startsWith (s pre : string) : bool := String.prefix pre s.

Fixpoint endsWith_aux (fuel : nat) (s suf : string) : bool :=
  if String.eqb s suf then true
  else match fuel, s with
       | S f, String _ s' => endsWith_aux f s' suf
       | _, _ => false
       end.

(** String.prototype.endsWith: some tail of [s] is [suf]. *)
Definition endsWith (s suf : string) : bool :=
  endsWith_aux (String.length s) s suf.

(** The integer a string of digits writes in base 10. *)
Fixpoint decimal_value_from (acc : N) (s : string) : N :=
  match s with
  | EmptyString => acc
  | String c s' => decimal_value_from (10 * acc + digit_value c)%N s'
  end.

Definition decimal_value (s : string) : N := decimal_value_from 0 s.

End Str.

Import Str.

(** ** parseFloat and parseInt *)

Module Parse.

(** The number value of [±n·10^e10]. *)
Definition number_of_decimal (neg : bool) (n : N) (e10 : Z) : Number :=
  if 0 <=? e10
  then of_Z_signed neg (cond_Zopp neg (Z.of_N n * 10 ^ e10))
  else of_ratio neg n (Z.to_pos (10 ^ (- e10))).

(** An optional leading sign: whether it is a minus, and the rest. *)
Definition take_sign (s : string) : bool * string :=
  match s with
  | String c s' =>
      if Ascii.eqb c "-" then (true, s')
      else if Ascii.eqb c "+" then (false, s')
      else (false, s)
  | EmptyString => (false, s)
  end.

(** The rest of [s] after the character [c], when [s] starts with it. *)
Definition after_char (c : ascii) (s : string) : option string :=
  match s with
  | String d s' => if Ascii.eqb d c then Some s' else None
  | EmptyString => None
  end.

(** The exponent part [e±ddd] at the head of [s], when there is one. *)
Definition exponent_part (s : string) : Z :=
  match s with
  | String c s' =>
      if (Ascii.eqb c "e" || Ascii.eqb c "E")%bool then
        let '(neg, s'') := take_sign s' in
        let '(ds, _) := span is_digit s'' in
        match ds with
        | EmptyString => 0
        | _ => cond_Zopp neg (Z.of_N (decimal_value ds))
        end
      else 0
  | EmptyString => 0
  end.

(** parseFloat: leading blanks are skipped, then the longest prefix that
    is a decimal literal (sign, [Infinity], digits with an optional
    fraction and exponent) gives the value; NaN when there is none. *)
Definition parseFloat (input : string) : Number :=
  let '(neg, s) := take_sign (trimStart input) in
  if String.prefix "Infinity" s then S754_infinity neg
  else
    let '(ip, r1) := span is_digit s in
    let '(fp, r2) :=
      match after_char "." r1 with
      | Some r => span is_digit r
      | None => (EmptyString, r1)
      end in
    match ip ++ fp with
    | EmptyString => NaN
    | ds =>
        number_of_decimal neg (decimal_value ds)
          (exponent_part r2 - Z.of_nat (String.length fp))
    end.

Definition is_hex_digit (c : ascii) : bool :=
  let n := code c in
  (is_digit c || (97 <=? n) && (n <=? 102) || (65 <=? n) && (n <=? 70))%N.

Definition hex_digit_value (c : ascii) : N :=
  let n := code c in
  if is_digit c then (n - 48)%N
  else if (97 <=? n)%N then (n - 87)%N else (n - 55)%N.

Fixpoint hex_value_from (acc : N) (s : string) : N :=
  match s with
  | EmptyString => acc
  | String c s' => hex_value_from (16 * acc + hex_digit_value c)%N s'
  end.

(** ToString on what a header lookup yields: the string itself, or
    ["undefined"] when the header is absent. *)
Definition ToString (v : option string) : string :=
  match v with
  | Some s => s
  | None => "undefined"
  end.

(** parseInt without a radix: leading blanks are skipped, a sign is
    taken, a [0x] prefix selects base 16, and the digits that follow
    give the integer; NaN when no digit follows. *)
Definition parseInt (v : option string) : Number :=
  let '(neg, s) := take_sign (trimStart (ToString v)) in
  let '(hex, s) :=
    if (String.prefix "0x" s || String.prefix "0X" s)%bool
    then (true, String.substring 2 (String.length s - 2) s)
    else (false, s) in
  let '(ds, _) := span (if hex then is_hex_digit else is_digit) s in
  match ds with
  | EmptyString => NaN
  | _ =>
      let mathInt :=
        Z.of_N (if hex then hex_value_from 0 ds else decimal_value ds) in
      of_Z_signed neg (cond_Zopp neg mathInt)
  end.

End Parse.

Import Parse.

(** ** The framework's request and response objects *)

Module Express.

(** The values that occur in the JSON envelopes. *)
Inductive Val :=
  | VUndefined
  | VBool (b : bool)
  | VStr (s : string).

(** An object literal: its properties in the order written. *)
Definition Json := list (string * Val).

Record Request := {
  method : string;
  path : string;
  headers : gmap string string
}.

Record Response := {
  statusCode : Z;
  resHeaders : gmap string string;
  body : option Json
}.

(** A response on which nothing was called yet. *)
Definition fresh : Response :=
  {| statusCode := 200; resHeaders := ∅; body := None |}.

(** res.status(code) *)
Definition status (code : Z) (res : Response) : Response :=
  {| statusCode := code; resHeaders := resHeaders res; body := body res |}.

(** res.json(obj) *)
Definition json (obj : Json) (res : Response) : Response :=
  {| statusCode := statusCode res; resHeaders := resHeaders res;
     body := Some obj |}.

(** res.set(field, value) *)
Definition set (field value : string) (res : Response) : Response :=
  {| statusCode := statusCode res;
     resHeaders := <[field := value]> (resHeaders res);
     body := body res |}.

(** What a middleware has done so far: the response as it stands and how
    many times [next] was called. *)
Record Exchange := {
  response : Response;
  nextCalls : nat
}.

Definition start (res : Response) : Exchange :=
  {| response := res; nextCalls := 0 |}.

Definition on_response (f : Response -> Response) (x : Exchange) : Exchange :=
  {| response := f (response x); nextCalls := nextCalls x |}.

(** next() *)
Definition next (x : Exchange) : Exchange :=
  {| response := response x; nextCalls := S (nextCalls x) |}.

End Express.

Import Express.

(** ** Performance utilities *)

(** [/\.(js|css|png|jpg|jpeg|gif|ico|svg)$/]: the pattern is searched
    anywhere in the path and anchored at its end, so it matches when the
    path ends with a dot and one of the extensions. *)
Definition static_extensions : list string :=
  ["js"; "css"; "png"; "jpg"; "jpeg"; "gif"; "ico"; "svg"].

Definition matches_static_asset (p : string) : bool :=
  existsb (fun ext => endsWith p ("." ++ ext)) static_extensions.

Definition setCacheHeaders (req : Request) (x : Exchange) : Exchange :=
  let x1 :=
    if matches_static_asset (path req)
    then on_response (set "Cache-Control" "public, max-age=3600") x
    else if startsWith (path req) "/api/"
    then on_response (set "Cache-Control" "public, max-age=300") x
    else x in
  next x1.

(** The unit table of parseSize; a key outside it reads [undefined]. *)
Definition units (u : string) : option Number :=
  if String.eqb u "b" then Some (of_Z 1)
  else if String.eqb u "kb" then Some (of_Z 1024)
  else if String.eqb u "mb" then Some (mul (of_Z 1024) (of_Z 1024))
  else if String.eqb u "gb"
       then Some (mul (mul (of_Z 1024) (of_Z 1024)) (of_Z 1024))
  else None.

Definition unit_names : list string := ["b"; "kb"; "mb"; "gb"].

(** [/^(\d+(?:\.\d+)?)\s*(b|kb|mb|gb)?$/] on the whole string: the two
    groups when it matches. Digits, the dot, blanks and the unit letters
    are disjoint classes, so the greedy reading is the only one. *)
Definition size_pattern (s : string) : option (string * option string) :=
  let '(ip, r1) := span is_digit s in
  match ip with
  | EmptyString => None
  | _ =>
      let '(g1, r2) :=
        match after_char "." r1 with
        | Some r =>
            let '(fp, r') := span is_digit r in
            match fp with
            | EmptyString => (ip, r1)
            | _ => (ip ++ "." ++ fp, r')
            end
        | None => (ip, r1)
        end in
      let '(_, r3) := span is_space r2 in
      match r3 with
      | EmptyString => Some (g1, None)
      | _ => if existsb (String.eqb r3) unit_names
             then Some (g1, Some r3) else None
      end
  end.

Definition parseSize (size : string) : Number :=
  match size_pattern (toLowerCase size) with
  | None => of_Z 0
  | Some (g1, g2) =>
      let value := parseFloat g1 in
      let unit := default "b" g2 in
      match units unit with
      | Some u => floor (mul value u)
      | None => NaN
      end
  end.

(** The default of the [maxSize] parameter. *)
Definition default_maxSize : string := "10mb".

Definition requestSizeLimiter (maxSize : option string)
    (req : Request) (x : Exchange) : Exchange :=
  let maxSize := default default_maxSize maxSize in
  let contentLength := parseInt (headers req !! "content-length") in
  let maxBytes := parseSize maxSize in
  if truthy contentLength && gt contentLength maxBytes
  then on_response
         (fun res => json [("success", VBool false);
                           ("error", VStr "Request entity too large");
                           ("maxSize", VStr maxSize)]
                       (status 413 res)) x
  else next x.

(** ** Promises on a logical clock *)

Module Async.

(** What a [throw] or a rejection carries: an error object with its
    message, some other value that has no [message] property, or null
    or undefined, on which reading a property fails. *)
Inductive Thrown :=
  | Error (message : string)
  | NoMessage
  | ThrownNull
  | ThrownUndefined.

Inductive Settled (A : Type) :=
  | Fulfilled (v : A)
  | Rejected (reason : Thrown).
Arguments Fulfilled {A} v.
Arguments Rejected {A} reason.

(** A promise either never settles or settles [t] milliseconds after it
    was created. *)
Inductive Promise (A : Type) :=
  | Pending
  | Settles (t : nat) (o : Settled A).
Arguments Pending {A}.
Arguments Settles {A} t o.

(** One input promise of Promise.all settling. *)
Record Arrival (A : Type) := {
  at_time : nat;
  index : nat;
  outcome : Settled A
}.
Arguments at_time {A} _.
Arguments index {A} _.
Arguments outcome {A} _.

Fixpoint arrivals_from {A} (i : nat) (ps : list (Promise A))
    : list (Arrival A) :=
  match ps with
  | [] => []
  | p :: ps' =>
      match p with
      | Settles t o => [{| at_time := t; index := i; outcome := o |}]
      | Pending => []
      end ++ arrivals_from (S i) ps'
  end.

Definition earlier {A} (a b : Arrival A) : Prop := (at_time a <= at_time b)%nat.

#[global] Instance earlier_dec {A} : RelDecision (@earlier A).
Proof. intros a b. unfold earlier. apply _. Defined.

(** The input promises in the order in which they settle. *)
Definition completion_order {A} (ps : list (Promise A)) : list (Arrival A) :=
  merge_sort earlier (arrivals_from 0 ps).

(** The state Promise.all keeps: the slots of the result array, the
    count of inputs still awaited, and its own promise. *)
Record AllState (A : Type) := {
  values : list (option A);
  remaining : nat;
  result : Promise (list A)
}.
Arguments values {A} _.
Arguments remaining {A} _.
Arguments result {A} _.

Definition all_init {A} (n : nat) : AllState A :=
  {| values := replicate n None; remaining := n; result := Pending |}.

(** The reaction to one input settling: a rejection rejects the whole;
    a fulfilment stores the value in the slot of its index and, when it
    was the last one awaited, fulfils the whole with the array. Once the
    whole is settled nothing changes it. *)
Definition all_step {A} (st : AllState A) (a : Arrival A) : AllState A :=
  match result st with
  | Settles _ _ => st
  | Pending =>
      match outcome a with
      | Rejected r =>
          {| values := values st; remaining := remaining st;
             result := Settles (at_time a) (Rejected r) |}
      | Fulfilled v =>
          let values' := <[index a := Some v]> (values st) in
          let remaining' := (remaining st - 1)%nat in
          {| values := values'; remaining := remaining';
             result := if (remaining' =? 0)%nat
                       then Settles (at_time a) (Fulfilled (omap id values'))
                       else Pending |}
      end
  end.

(** Promise.all *)
Definition Promise_all {A} (ps : list (Promise A)) : Promise (list A) :=
  match ps with
  | [] => Settles 0 (Fulfilled [])
  | _ => result (foldl all_step (all_init (length ps)) (completion_order ps))
  end.

(** Promise.race on two promises: the one that settles first decides;
    [first_on_tie] tells whether the first wins when both settle in the
    same millisecond. *)
Definition Promise_race {A} (first_on_tie : bool) (p q : Promise A)
    : Promise A :=
  match p, q with
  | Pending, _ => q
  | _, Pending => p
  | Settles tp _, Settles tq _ =>
      if (tp <? tq)%nat then p
      else if (tq <? tp)%nat then q
      else if first_on_tie then p else q
  end.

(** The delay setTimeout really uses: a delay below 1 or above
    2147483647 is replaced by 1. *)
Definition timer_delay (ms : Z) : nat :=
  if (1 <=? ms) && (ms <=? 2147483647) then Z.to_nat ms else 1%nat.

End Async.

Import Async.

(** Array.prototype.slice(start, end): a negative bound counts from the
    end, both are clamped to the array. *)
Definition slice {A} (l : list A) (start end_ : Z) : list A :=
  let len := Z.of_nat (length l) in
  let k := if start <? 0 then Z.max (len + start) 0 else Z.min start len in
  let final := if end_ <? 0 then Z.max (len + end_) 0 else Z.min end_ len in
  take (Z.to_nat (final - k)) (drop (Z.to_nat k) l).

(** The default of the [batchSize] parameter. *)
Definition default_batchSize : Z := 100.

(** The loop of batchProcess from index [i] on, at time [now], with the
    results pushed so far; [None] when [fuel] iterations did not end it.
    An awaited promise that never settles leaves the whole pending, a
    rejected one rejects it. *)
Fixpoint batchLoop {A B} (fuel : nat) (items : list A) (batchSize : Z)
    (processor : A -> Promise B) (i : Z) (now : nat) (results : list B)
    : option (Promise (list B)) :=
  match fuel with
  | O => None
  | S fuel' =>
      if i <? Z.of_nat (length items) then
        let batch := slice items i (i + batchSize) in
        match Promise_all (map processor batch) with
        | Pending => Some Pending
        | Settles t (Rejected r) => Some (Settles (now + t) (Rejected r))
        | Settles t (Fulfilled batchResults) =>
            batchLoop fuel' items batchSize processor (i + batchSize)
              (now + t) (results ++ batchResults)
        end
      else Some (Settles now (Fulfilled results))
  end.

Definition batchProcess {A B} (fuel : nat) (items : list A)
    (batchSize : option Z) (processor : A -> Promise B)
    : option (Promise (list B)) :=
  batchLoop fuel items (default default_batchSize batchSize) processor 0 0 [].

(** The default of the [timeoutMs] parameter. *)
Definition default_timeoutMs : Z := 10000.

(** The mathematical value of a finite number that is an integer. *)
Definition integer_value (x : Number) : Z :=
  match x with
  | S754_finite s m e => cond_Zopp s (Z.shiftl (Zpos m) e)
  | _ => 0
  end.

(** The decimal with the fewest significant digits that denotes the
    number of value [v], as an integer: for each count of digits, from
    one on, the multiples of [10^e] on either side of [v] are tried, and
    of two that both round to the number the closer one is taken. *)
Fixpoint shortest (fuel : nat) (v : Z) (e : Z) : Z :=
  match fuel with
  | O => v
  | S fuel' =>
      let p := 10 ^ e in
      let lo := v / p * p in
      let hi := lo + p in
      let ok_lo := SFeqb (of_Z lo) (of_Z v) in
      let ok_hi := SFeqb (of_Z hi) (of_Z v) in
      if ok_lo && ok_hi then
        if v - lo <? hi - v then lo
        else if hi - v <? v - lo then hi
        else if Z.even (lo / p) then lo else hi
      else if ok_lo then lo
      else if ok_hi then hi
      else shortest fuel' v (e - 1)
  end.

(** A string of digits without the zeros at its end. *)
Fixpoint strip_zeros (s : string) : string :=
  match s with
  | EmptyString => EmptyString
  | String c s' =>
      match strip_zeros s' with
      | EmptyString =>
          if Ascii.eqb c "0" then EmptyString else String c EmptyString
      | r => String c r
      end
  end.

(** Number::toString on a positive integer value: the shortest digits,
    written out in full up to 21 places and in exponent form beyond. *)
Definition positive_toString (v : Z) : string :=
  let d := Z.of_nat (String.length (pretty v)) in
  let digits := pretty (shortest (Z.to_nat d) v (d - 1)) in
  let n := Z.of_nat (String.length digits) in
  if n <=? 21 then digits
  else match strip_zeros digits with
       | String a EmptyString => String a ("e+" ++ pretty (n - 1))
       | String a r => String a ("." ++ r ++ "e+" ++ pretty (n - 1))
       | EmptyString => EmptyString
       end.

(** What a template literal prints for the number an integer denotes.
    Up to 2^53 the number is the integer and no shorter decimal denotes
    it, so all its digits are printed; beyond, the integer is rounded to
    a number first, and what is past the largest number is Infinity. *)
Definition Number_toString (z : Z) : string :=
  if Z.abs z <=? 2 ^ 53 then pretty z
  else match of_Z z with
       | S754_finite s _ _ as x =>
           (if s then "-" else EmptyString)
           ++ positive_toString (Z.abs (integer_value x))
       | S754_infinity s => (if s then "-" else EmptyString) ++ "Infinity"
       | _ => "NaN"
       end.

Definition timeout_message (timeoutMs : Z) : string :=
  "Operation timed out after " ++ Number_toString timeoutMs ++ "ms".

Definition withTimeout {A} (first_on_tie : bool) (promise : Promise A)
    (timeoutMs : option Z) : Promise A :=
  let timeoutMs := default default_timeoutMs timeoutMs in
  Promise_race first_on_tie promise
    (Settles (timer_delay timeoutMs)
       (Rejected (Error (timeout_message timeoutMs)))).

(** ** Effects: state that survives a throw *)

Module Effect.

(** A computation on a state [S] that returns a value or throws; what it
    did to the state before throwing stays done. *)
Definition M (S A : Type) : Type := S -> (A + Thrown) * S.

Definition ret {S A} (a : A) : M S A := fun s => (inl a, s).

Definition throw {S A} (e : Thrown) : M S A := fun s => (inr e, s).

Definition bind {S A B} (m : M S A) (k : A -> M S B) : M S B :=
  fun s =>
    match m s with
    | (inl a, s') => k a s'
    | (inr e, s') => (inr e, s')
    end.

(** try { body } catch (error) { handler error } *)
Definition try_catch {S A} (body : M S A) (handler : Thrown -> M S A)
    : M S A :=
  fun s =>
    match body s with
    | (inl a, s') => (inl a, s')
    | (inr e, s') => handler e s'
    end.

Definition gets {S A} (f : S -> A) : M S A := fun s => (inl (f s), s).

Definition modify {S} (f : S -> S) : M S unit := fun s => (inl tt, f s).

(** Run a computation on a part of the state. *)
Definition zoom {S T A} (get : T -> S) (put : S -> T -> T) (m : M S A)
    : M T A :=
  fun t => let '(r, s') := m (get t) in (r, put s' t).

End Effect.

Import Effect.

Declare Scope effect_scope.
Delimit Scope effect_scope with effect.
Notation "'let*' x ':=' m 'in' k" := (bind m (fun x => k))
  (at level 10, x name, m at level 100, k at level 200) : effect_scope.
Notation "m ';;;' k" := (bind m (fun _ => k))
  (at level 100, k at level 200, right associativity) : effect_scope.

(** ** The connection cache *)

Module Db.

(** The lines the module writes on the console. *)
Inductive Message :=
  | UsingCached                        (* console.log, cached connection *)
  | Connecting                         (* console.log, before connecting *)
  | Connected                          (* console.log, after connecting *)
  | ConnectionError (error : option Thrown)   (* console.error, observer *)
  | Disconnected                       (* console.warn, observer *)
  | Reconnected                        (* console.log, observer *)
  | ConnectionFailed (error : Thrown)  (* console.error, connect failed *)
  | ConnectionClosed                   (* console.log, after closing *)
  | CloseError (error : Thrown)        (* console.error, close failed *)
  | DatabaseOperationError (error : Thrown).  (* console.error, wrapper *)

Record ConnectionOptions := {
  maxPoolSize : Z;
  serverSelectionTimeoutMS : Z;
  socketTimeoutMS : Z;
  bufferCommands : bool;
  bufferMaxEntries : Z;
  useNewUrlParser : bool;
  useUnifiedTopology : bool;
  maxIdleTimeMS : Z;
  heartbeatFrequencyMS : Z
}.

(** The options of [utils/dbConnection.js]; the second copy of the module
    passes them without [bufferMaxEntries], [useNewUrlParser] and
    [useUnifiedTopology], and is the same otherwise. *)
Definition connectionOptions : ConnectionOptions :=
  {| maxPoolSize := 10;
     serverSelectionTimeoutMS := 5000;
     socketTimeoutMS := 45000;
     bufferCommands := false;
     bufferMaxEntries := 0;
     useNewUrlParser := true;
     useUnifiedTopology := true;
     maxIdleTimeMS := 30000;
     heartbeatFrequencyMS := 10000 |}.

(** What happened, in order: console lines and calls into the driver. *)
Inductive Event :=
  | Console (m : Message)
  | DriverConnect (uri : option string) (options : ConnectionOptions)
  | DriverClose.

(** The three observers connectToDatabase registers. *)
Inductive Observer :=
  | OnError
  | OnDisconnected
  | OnReconnected.

(** The module variable [cachedConnection], the driver's own state, the
    observers registered on [mongoose.connection], the environment
    variable MONGODB_URI and the trace of events. *)
Record World (Handle DriverState : Type) := {
  cachedConnection : option Handle;
  driver : DriverState;
  listeners : list (string * Observer);
  MONGODB_URI : option string;
  trace : list Event
}.
Arguments cachedConnection {Handle DriverState} _.
Arguments driver {Handle DriverState} _.
Arguments listeners {Handle DriverState} _.
Arguments MONGODB_URI {Handle DriverState} _.
Arguments trace {Handle DriverState} _.

(** The table of getConnectionStatus. *)
Definition states (readyState : Z) : option string :=
  if readyState =? 0 then Some "disconnected"
  else if readyState =? 1 then Some "connected"
  else if readyState =? 2 then Some "connecting"
  else if readyState =? 3 then Some "disconnecting"
  else None.

Record Status := {
  state : string;
  status_readyState : Z;
  status_host : option string;
  status_name : option string
}.

(** How many times the driver was asked to connect. *)
Definition is_connect_call (e : Event) : bool :=
  match e with DriverConnect _ _ => true | _ => false end.

Definition is_close_call (e : Event) : bool :=
  match e with DriverClose => true | _ => false end.

Definition connect_calls (t : list Event) : nat :=
  length (List.filter is_connect_call t).

Definition close_calls (t : list Event) : nat :=
  length (List.filter is_close_call t).

Section Cache.

Context {Handle DriverState : Type}.

(** The driver: its readiness state, host and database name, and what
    connecting and closing do to it. *)
Variable readyState : DriverState -> Z.
Variable host name : DriverState -> option string.
Variable mongoose_connect :
  option string -> ConnectionOptions -> DriverState ->
  (Handle + Thrown) * DriverState.
Variable connection_close : DriverState -> (unit + Thrown) * DriverState.

Abbreviation W := (World Handle DriverState).

(** Truthiness of the cached handle: an object is truthy, null is not. *)
Definition non_null (c : option Handle) : bool :=
  match c with Some _ => true | None => false end.

Definition set_cached (c : option Handle) (w : W) : W :=
  {| cachedConnection := c; driver := driver w; listeners := listeners w;
     MONGODB_URI := MONGODB_URI w; trace := trace w |}.

Definition set_driver (d : DriverState) (w : W) : W :=
  {| cachedConnection := cachedConnection w; driver := d;
     listeners := listeners w; MONGODB_URI := MONGODB_URI w;
     trace := trace w |}.

Definition record (e : Event) (w : W) : W :=
  {| cachedConnection := cachedConnection w; driver := driver w;
     listeners := listeners w; MONGODB_URI := MONGODB_URI w;
     trace := trace w ++ [e] |}.

(** mongoose.connection.on(name, observer) *)
Definition on (name : string) (o : Observer) (w : W) : W :=
  {| cachedConnection := cachedConnection w; driver := driver w;
     listeners := listeners w ++ [(name, o)];
     MONGODB_URI := MONGODB_URI w; trace := trace w |}.

Definition console (m : Message) : M W unit := modify (record (Console m)).

(** await mongoose.connect(uri, options) *)
Definition call_connect (uri : option string) (options : ConnectionOptions)
    : M W Handle :=
  fun w =>
    let w1 := record (DriverConnect uri options) w in
    let '(r, d) := mongoose_connect uri options (driver w1) in
    (r, set_driver d w1).

(** await mongoose.connection.close() *)
Definition call_close : M W unit :=
  fun w =>
    let w1 := record DriverClose w in
    let '(r, d) := connection_close (driver w1) in
    (r, set_driver d w1).

Local Open Scope effect_scope.

Definition connectToDatabase : M W (option Handle) :=
  let* cached := gets cachedConnection in
  let* ready := gets (fun w => readyState (driver w) =? 1) in
  if non_null cached && ready then
    console UsingCached ;;;
    gets cachedConnection
  else
    try_catch
      (console Connecting ;;;
       let* uri := gets MONGODB_URI in
       let* connection := call_connect uri connectionOptions in
       modify (set_cached (Some connection)) ;;;
       console Connected ;;;
       modify (on "error" OnError) ;;;
       modify (on "disconnected" OnDisconnected) ;;;
       modify (on "reconnected" OnReconnected) ;;;
       gets cachedConnection)
      (fun error =>
         console (ConnectionFailed error) ;;;
         modify (set_cached None) ;;;
         throw error).

Definition closeConnection : M W unit :=
  let* cached := gets cachedConnection in
  if non_null cached then
    try_catch
      (call_close ;;;
       modify (set_cached None) ;;;
       console ConnectionClosed)
      (fun error => console (CloseError error))
  else ret tt.

Definition isConnected (w : W) : bool := readyState (driver w) =? 1.

Definition getConnectionStatus (w : W) : Status :=
  {| state := default "unknown" (states (readyState (driver w)));
     status_readyState := readyState (driver w);
     status_host := host (driver w);
     status_name := name (driver w) |}.

(** The body of an observer. *)
Definition observe (o : Observer) (arg : option Thrown) (w : W) : W :=
  match o with
  | OnError => set_cached None (record (Console (ConnectionError arg)) w)
  | OnDisconnected => set_cached None (record (Console Disconnected) w)
  | OnReconnected => record (Console Reconnected) w
  end.

(** mongoose.connection.emit(name, arg): the observers registered under
    [name] run in the order of their registration. *)
Definition emit (name : string) (arg : option Thrown) (w : W) : W :=
  foldl (fun w '(n, o) => if String.eqb n name then observe o arg w else w)
        w (listeners w).

(** The driver moving to the state [d] and announcing it with the event
    [name]. *)
Definition driver_event (name : string) (arg : option Thrown)
    (d : DriverState) (w : W) : W :=
  emit name arg (set_driver d w).

End Cache.

End Db.

Import Db.

(** ** The handler wrappers *)

Module Wrappers.

(** What a handler returns: some value, or the response object, as
    [res.json] does. *)
Inductive Ret :=
  | RetValue (v : Val)
  | RetResponse.

Section Wrappers.

Context {Handle DriverState : Type}.
Variable readyState : DriverState -> Z.
Variable mongoose_connect :
  option string -> ConnectionOptions -> DriverState ->
  (Handle + Thrown) * DriverState.

(** What a handler acts on: the connection cache with the driver, and
    the response with the count of [next] calls. *)
Record Ctx := {
  world : World Handle DriverState;
  exchange : Exchange
}.

(** A handler [(req, res, next) => ...]. *)
Definition Handler : Type := Request -> M Ctx Ret.

Definition in_world {A} (m : M (World Handle DriverState) A) : M Ctx A :=
  zoom world (fun w c => {| world := w; exchange := exchange c |}) m.

Definition respond (f : Response -> Response) : M Ctx unit :=
  modify (fun c => {| world := world c;
                      exchange := on_response f (exchange c) |}).

(** Reading [error.message]: on null and undefined the read throws a
    TypeError. *)
Definition message_of (error : Thrown) : M Ctx Val :=
  match error with
  | Error message => ret (VStr message)
  | NoMessage => ret VUndefined
  | ThrownNull =>
      throw (Error "Cannot read properties of null (reading 'message')")
  | ThrownUndefined =>
      throw (Error "Cannot read properties of undefined (reading 'message')")
  end.

(** The envelope of the 500 answer. *)
Definition database_failure (message : Val) : Json :=
  [("success", VBool false);
   ("error", VStr "Database operation failed");
   ("message", message)].

Local Open Scope effect_scope.

Definition withDatabase (fn : Handler) : Handler :=
  fun req =>
    try_catch
      (in_world (connectToDatabase readyState mongoose_connect) ;;;
       fn req)
      (fun error =>
         in_world (console (DatabaseOperationError error)) ;;;
         respond (status 500) ;;;
         let* message := message_of error in
         respond (json (database_failure message)) ;;;
         ret RetResponse).

End Wrappers.

End Wrappers.

Import Wrappers.

(** ** The wrappers around a route handler *)

Module Middleware.

(** The lines the performance monitor writes on the console. *)
Inductive MonitorLine :=
  | SlowRequest (method path : string) (duration : Z)     (* console.warn *)
  | RequestFailed (method path : string) (duration : Z) (error : Thrown).

(** What calling a function gives at once: it throws, it returns a value
    that is no promise, or it returns a promise, whose work [rest] goes
    on after the call has returned and ends in a fulfilment or a
    rejection. *)
Inductive Call (S : Type) :=
  | Threw (e : Thrown)
  | Returned (v : Ret)
  | Promised (rest : M S Ret).

Arguments Threw {S} e.
Arguments Returned {S} v.
Arguments Promised {S} rest.

Section Middleware.

Context {Handle DriverState : Type}.
Variable readyState : DriverState -> Z.
Variable mongoose_connect :
  option string -> ConnectionOptions -> DriverState ->
  (Handle + Thrown) * DriverState.

(** What a route acts on: the context of the request, the errors handed
    to [next], and the lines of the monitor. *)
Record Env := {
  ctx : @Ctx Handle DriverState;
  forwarded : list Thrown;
  monitor : list MonitorLine
}.

(** The environment together with the reactions attached to promises
    that have not run yet. They run, in the order they were attached,
    once the call that attached them is over. *)
Record Loop := {
  env : Env;
  scheduled : list (Env -> Env)
}.

(** Date.now(), read off the environment. *)
Variable Date_now : Env -> Z.

(** A function [(req, res, next) => ...] as written by the user. *)
Definition Route : Type := Request -> Env -> Call Env * Env.

(** A function [(req, res, next) => ...] seen by a caller that awaits
    it: it gives a value, or it throws or rejects. *)
Definition Awaited : Type := Request -> M Loop Ret.

Definition on_env (f : Env -> Env) (l : Loop) : Loop :=
  {| env := f (env l); scheduled := scheduled l |}.

Definition on_ctx {A} (m : M (@Ctx Handle DriverState) A) : M Loop A :=
  zoom (fun l => ctx (env l))
       (fun c l => {| env := {| ctx := c;
                                forwarded := forwarded (env l);
                                monitor := monitor (env l) |};
                      scheduled := scheduled l |})
       m.

(** next(error) *)
Definition next_error (e : Thrown) (s : Env) : Env :=
  {| ctx := {| world := world (ctx s);
               exchange := next (exchange (ctx s)) |};
     forwarded := (forwarded s ++ [e])%list;
     monitor := monitor s |}.

(** [promise.catch(next)]: when the promise has done its work, a
    rejection is handed to [next] and a fulfilment is dropped. *)
Definition catch_next (rest : M Env Ret) : Env -> Env :=
  fun s =>
    match rest s with
    | (inl _, s') => s'
    | (inr e, s') => next_error e s'
    end.

Definition attach (job : Env -> Env) (l : Loop) : Loop :=
  {| env := env l; scheduled := (scheduled l ++ [job])%list |}.

(** Run what is left to run. *)
Definition quiesce (l : Loop) : Env :=
  foldl (fun s job => job s) (env l) (scheduled l).

(** [Promise.resolve(fn(req, res, next)).catch(next)]: a value that is
    no promise becomes a fulfilled promise, on which [catch] never
    fires. *)
Definition asyncHandler (fn : Route) : Awaited :=
  fun req l =>
    match fn req (env l) with
    | (Threw e, s) => (inr e, on_env (fun _ => s) l)
    | (Returned _, s) => (inl (RetValue VUndefined), on_env (fun _ => s) l)
    | (Promised rest, s) =>
        (inl (RetValue VUndefined),
         attach (catch_next rest) (on_env (fun _ => s) l))
    end.

(** Reading [catch] off a value that is no promise and calling it. *)
Definition no_catch (v : Ret) : Thrown :=
  match v with
  | RetValue VUndefined =>
      Error "Cannot read properties of undefined (reading 'catch')"
  | _ => Error "fn(...).catch is not a function"
  end.

(** [fn(req, res, next).catch(next)] *)
Definition catchAsync (fn : Route) : Awaited :=
  fun req l =>
    match fn req (env l) with
    | (Threw e, s) => (inr e, on_env (fun _ => s) l)
    | (Returned v, s) => (inr (no_catch v), on_env (fun _ => s) l)
    | (Promised rest, s) =>
        (inl (RetValue VUndefined),
         attach (catch_next rest) (on_env (fun _ => s) l))
    end.

Local Open Scope effect_scope.

(** withDatabase around a function that may leave work behind: the body
    is that of [Wrappers.withDatabase], acting on the context inside the
    loop. *)
Definition withDatabase (fn : Awaited) : Awaited :=
  fun req =>
    try_catch
      (on_ctx (in_world (connectToDatabase readyState mongoose_connect)) ;;;
       fn req)
      (fun error =>
         on_ctx (in_world (console (DatabaseOperationError error))) ;;;
         on_ctx (respond (status 500)) ;;;
         let* message := on_ctx (message_of error) in
         on_ctx (respond (json (database_failure message))) ;;;
         ret RetResponse).

Definition now : M Loop Z := gets (fun l => Date_now (env l)).

Definition log (line : MonitorLine) : M Loop unit :=
  modify (on_env (fun s => {| ctx := ctx s;
                              forwarded := forwarded s;
                              monitor := (monitor s ++ [line])%list |})).

Definition withPerformanceMonitoring (fn : Awaited) : Awaited :=
  fun req =>
    let* startTime := now in
    try_catch
      (let* result := fn req in
       let* finish := now in
       let duration := finish - startTime in
       (if 1000 <? duration
        then log (SlowRequest (method req) (path req) duration)
        else ret tt) ;;;
       ret result)
      (fun error =>
         let* finish := now in
         let duration := finish - startTime in
         log (RequestFailed (method req) (path req) duration error) ;;;
         throw error).

(** The reaction asyncHandler attaches stays in [scheduled] while the
    two wrappers go on; when the promise is settled early the code runs
    it before they do, so only what holds in either order is stated of
    the combination. *)
Definition withDatabaseAndMonitoring (fn : Route) : Awaited :=
  withPerformanceMonitoring (withDatabase (asyncHandler fn)).

End Middleware.

End Middleware.

(** * Vocabulary of the statements *)

(** ** Strings *)

(** Every character of [s] satisfies [p]. *)
Fixpoint all_of (p : ascii -> bool) (s : string) : bool :=
  match s with
  | EmptyString => true
  | String c s' => p c && all_of p s'
  end.

(** [s] is empty or its first character fails [p]. *)
Definition stops (p : ascii -> bool) (s : string) : Prop :=
  match s with
  | EmptyString => True
  | String c _ => p c = false
  end.

(** ** Paths *)

(** The path ends with a dot and one of the static extensions. *)
Definition has_static_extension (p : string) : Prop :=
  exists pre ext, In ext static_extensions /\ p = pre ++ "." ++ ext.

(** The path starts with [/api/]. *)
Definition has_api_prefix (p : string) : Prop :=
  exists rest, p = "/api/" ++ rest.

(** ** Size strings *)

(** The language of [/^(\d+(?:\.\d+)?)\s*(b|kb|mb|gb)?$/], stated on its
    own: digits, an optional dot followed by digits, blanks, an optional
    unit; with what the two groups capture. *)
Definition fraction (frac : string) : Prop :=
  frac = EmptyString \/
  exists fd, fd <> EmptyString /\ all_of is_digit fd = true /\ frac = "." ++ fd.

Definition unit_suffix (u : string) (g2 : option string) : Prop :=
  (u = EmptyString /\ g2 = None) \/ (In u unit_names /\ g2 = Some u).

Definition size_syntax (s g1 : string) (g2 : option string) : Prop :=
  exists ip frac ws u,
    ip <> EmptyString /\ all_of is_digit ip = true /\ fraction frac /\
    all_of is_space ws = true /\ unit_suffix u g2 /\
    s = ip ++ frac ++ ws ++ u /\ g1 = ip ++ frac.

Definition matches_size_syntax (s : string) : Prop :=
  exists g1 g2, size_syntax s g1 g2.

(** ** Promises *)

(** The slots of the result array once the inputs with an index in
    [done] have been fulfilled with their value of [vs]. *)
Definition filled {A} (done : list nat) (vs : list A) : list (option A) :=
  imap (fun j v => if bool_decide (j ∈ done) then Some v else None) vs.

(** The promise fulfils with [v] at some time. *)
Definition fulfils {A} (p : Promise A) (v : A) : Prop :=
  exists t, p = Settles t (Fulfilled v).

(** The promise settles at some time. *)
Definition settles {A} (p : Promise A) : Prop := p <> Pending.

(** A processor that fulfils with [f x] after [delay x] milliseconds. *)
Definition resolving {A B} (f : A -> B) (delay : A -> nat) (x : A)
    : Promise B :=
  Settles (delay x) (Fulfilled (f x)).

(** The operation is still unsettled when [bound] milliseconds have
    passed. *)
Definition unsettled_at {A} (bound : nat) (p : Promise A) : Prop :=
  match p with
  | Pending => True
  | Settles t _ => (bound < t)%nat
  end.

(** ** Worlds *)

(** The process as it starts: nothing cached, no observer, no event. *)
Definition initial {Handle DriverState : Type} (d : DriverState)
    (uri : option string) : World Handle DriverState :=
  {| cachedConnection := None; driver := d; listeners := [];
     MONGODB_URI := uri; trace := [] |}.

(** A cached handle is watched by the observer of [disconnected]. *)
Definition cache_guarded {Handle DriverState : Type}
    (w : World Handle DriverState) : Prop :=
  non_null (cachedConnection w) = true ->
  In ("disconnected", OnDisconnected) (listeners w).

(** The observers connectToDatabase registers, in order. *)
Definition observers : list (string * Observer) :=
  [("error", OnError); ("disconnected", OnDisconnected);
   ("reconnected", OnReconnected)].

Section CacheVocabulary.

Context {Handle DriverState : Type}.
Variable readyState : DriverState -> Z.
Variable mongoose_connect :
  option string -> ConnectionOptions -> DriverState ->
  (Handle + Thrown) * DriverState.
Variable connection_close : DriverState -> (unit + Thrown) * DriverState.

Abbreviation W := (World Handle DriverState).
Abbreviation connect := (connectToDatabase readyState mongoose_connect).
Abbreviation close := (closeConnection connection_close).

(** The worlds the process can be in: it starts, and then connects,
    closes, and receives driver events, in any order. *)
Inductive reachable : W -> Prop :=
  | reach_initial d uri : reachable (initial d uri)
  | reach_connect w : reachable w -> reachable (snd (connect w))
  | reach_close w : reachable w -> reachable (snd (close w))
  | reach_event name arg d w :
      reachable w -> reachable (driver_event name arg d w).

(** The world after the driver was asked to connect. *)
Definition asked (w : W) : W :=
  record (DriverConnect (MONGODB_URI w) connectionOptions)
    (record (Console Connecting) w).

Definition reuses (w : W) : bool :=
  non_null (cachedConnection w) && (readyState (driver w) =? 1).

(** The claim on close as it is written: with a cached connection the
    driver's teardown is called and the cache is null afterwards,
    without one nothing happens, and no error reaches the caller. *)
Definition close_claim (w : W) : Prop :=
  (non_null (cachedConnection w) = true ->
     close_calls (trace (snd (close w))) = S (close_calls (trace w)) /\
     cachedConnection (snd (close w)) = None) /\
  (cachedConnection w = None -> snd (close w) = w) /\
  fst (close w) = inl tt.

End CacheVocabulary.

Section WrapperVocabulary.

Context {Handle DriverState : Type}.

(** The catch block of withDatabase on an error with a message. *)
Definition answered (message : string) (error : Thrown)
    (c : @Ctx Handle DriverState) : @Ctx Handle DriverState :=
  {| world := record (Console (DatabaseOperationError error)) (world c);
     exchange :=
       on_response
         (fun res => json (database_failure (VStr message)) (status 500 res))
         (exchange c) |}.

End WrapperVocabulary.

(** ** A small driver to run the model on *)

Module Toy.

(** The driver state is its readiness state; a handle is a number. *)
Definition readiness (d : Z) : Z := d.

Definition accepting (uri : option string) (o : ConnectionOptions) (d : Z)
    : (nat + Thrown) * Z :=
  (inl 7%nat, 1).

Definition refusing (uri : option string) (o : ConnectionOptions) (d : Z)
    : (nat + Thrown) * Z :=
  (inr (Error "ECONNREFUSED"), 0).

Definition closing (d : Z) : (unit + Thrown) * Z := (inl tt, 0).

Definition failing_close (d : Z) : (unit + Thrown) * Z :=
  (inr (Error "topology was destroyed"), d).

Definition uri : option string := Some "mongodb://localhost/app".

Definition cold : World nat Z := initial 0 uri.

(** The world after a first successful connect. *)
Definition warm : World nat Z :=
  snd (connectToDatabase readiness accepting cold).

End Toy.

(** ** Requests and handlers to run the model on *)

Definition request (p : string) : Request :=
  {| method := "GET"; path := p; headers := ∅ |}.

Definition request_with_length (len : string) : Request :=
  {| method := "POST"; path := "/api/upload";
     headers := {["content-length" := len]} |}.

(** A handler that throws [Error("boom")] before it answers. *)
Definition boom : @Handler nat Z :=
  fun req => throw (Error "boom").

Definition fresh_context (w : World nat Z) : @Ctx nat Z :=
  {| world := w; exchange := start fresh |}.

(** ** Further vocabulary *)

(** The promise rejects with [r] at some time. *)
Definition rejects {A} (p : Promise A) (r : Thrown) : Prop :=
  exists t, p = Settles t (Rejected r).

(** The arrival is a fulfilment. *)
Definition is_fulfilment {A} (a : Arrival A) : Prop :=
  exists v, outcome a = Fulfilled v.

(** The time batchProcess takes on items that settle after the given
    delays: the chunks of [b] items run one after another, the items of
    a chunk together. *)
Fixpoint chunk_latency (fuel b : nat) (delays : list nat) : nat :=
  match fuel, delays with
  | S fuel', _ :: _ =>
      (max_list (take b delays) + chunk_latency fuel' b (drop b delays))%nat
  | _, _ => 0%nat
  end.

Definition latency (b : nat) (delays : list nat) : nat :=
  chunk_latency (length delays) b delays.

(** How many times a connection was established: the console lines that
    follow a successful connect. *)
Definition is_connected_line (e : Event) : bool :=
  match e with Console Connected => true | _ => false end.

Definition established (t : list Event) : nat :=
  length (List.filter is_connected_line t).

(** The value thrown has no properties to read: null or undefined. *)
Definition has_no_properties (e : Thrown) : bool :=
  match e with
  | ThrownNull | ThrownUndefined => true
  | _ => false
  end.

Section MiddlewareVocabulary.

Context {Handle DriverState : Type}.
Variable readyState : DriverState -> Z.
Variable mongoose_connect :
  option string -> ConnectionOptions -> DriverState ->
  (Handle + Thrown) * DriverState.

(** The error that reaches the catch block of withDatabase, with the
    context as it is then: what connect throws or, when connect
    succeeds, what the handler throws. *)
Definition caught (fn : @Handler Handle DriverState) (req : Request)
    (c : @Ctx Handle DriverState)
    : option (Thrown * @Ctx Handle DriverState) :=
  match in_world (connectToDatabase readyState mongoose_connect) c with
  | (inr e, c1) => Some (e, c1)
  | (inl _, c1) =>
      match fn req c1 with
      | (inr e, c2) => Some (e, c2)
      | (inl _, _) => None
      end
  end.

(** A loop in which an environment has nothing left to run. *)
Definition idle (s : @Middleware.Env Handle DriverState)
    : @Middleware.Loop Handle DriverState :=
  {| Middleware.env := s; Middleware.scheduled := [] |}.

(** A handler written on the context alone, seen on the loop. *)
Definition on_loop (fn : @Handler Handle DriverState)
    : @Middleware.Awaited Handle DriverState :=
  fun req => Middleware.on_ctx (fn req).

(** An awaited function whose reactions run as soon as it has
    returned, before its caller goes on: what happens when the promises
    it attached them to are settled by then. *)
Definition promptly (f : @Middleware.Awaited Handle DriverState)
    : @Middleware.Awaited Handle DriverState :=
  fun req l =>
    let '(r, l') := f req l in
    (r, {| Middleware.env := Middleware.quiesce l';
           Middleware.scheduled := [] |}).

End MiddlewareVocabulary.

(** An environment in which nothing was forwarded or logged yet. *)
Definition fresh_env (w : World nat Z) : @Middleware.Env nat Z :=
  {| Middleware.ctx := fresh_context w;
     Middleware.forwarded := [];
     Middleware.monitor := [] |}.

(** A clock that moves on by 600 ms with every event of the trace. *)
Definition trace_clock (s : @Middleware.Env nat Z) : Z :=
  600 * Z.of_nat (length (trace (world (Middleware.ctx s)))).

(** An [async] route that throws [Error("boom")]: its promise rejects. *)
Definition rejecting : @Middleware.Route nat Z :=
  fun req s => (Middleware.Promised (throw (Error "boom")), s).

(** A route that is no [async] function and throws [Error("boom")]. *)
Definition throwing : @Middleware.Route nat Z :=
  fun req s => (Middleware.Threw (Error "boom"), s).

(** A route that is no [async] function and returns nothing. *)
Definition returning : @Middleware.Route nat Z :=
  fun req s => (Middleware.Returned (RetValue VUndefined), s).

(** The same character, or the same letter of A-Z in its two cases. *)
Definition same_letter (c1 c2 : ascii) : Prop :=
  c1 = c2 \/
  ((65 <= code c1 <= 90)%N /\ code c2 = (code c1 + 32)%N) \/
  ((65 <= code c2 <= 90)%N /\ code c1 = (code c2 + 32)%N).

(** Two strings that differ by the case of their letters only. *)
Inductive differ_by_case : string -> string -> Prop :=
  | differ_nil : differ_by_case EmptyString EmptyString
  | differ_cons c1 c2 s1 s2 :
      same_letter c1 c2 -> differ_by_case s1 s2 ->
      differ_by_case (String c1 s1) (String c2 s2).

(** * Properties *)

(** ** Strings *)

Section StringFacts.

Lemma span_spec p s a b :
  span p s = (a, b) -> s = a ++ b /\ all_of p a = true /\ stops p b.
Proof.
  revert a b. induction s as [|c s IH]; simpl; intros a b H.
  - inversion H; subst. repeat split.
  - destruct (p c) eqn:Hc.
    + destruct (span p s) as [a' b'] eqn:Hs. inversion H; subst.
      destruct (IH _ _ eq_refl) as (-> & Ha & Hb).
      simpl. rewrite Hc, Ha. repeat split. exact Hb.
    + inversion H; subst. simpl. repeat split. exact Hc.
Qed.

Lemma span_app p a b :
  all_of p a = true -> stops p b -> span p (a ++ b) = (a, b).
Proof.
  induction a as [|c a IH]; simpl; intros Ha Hb.
  - destruct b as [|c b]; simpl in *; [reflexivity | now rewrite Hb].
  - apply andb_true_iff in Ha as [Hc Ha]. now rewrite Hc, (IH Ha Hb).
Qed.

Lemma append_nil_r (s : string) : s ++ EmptyString = s.
Proof. induction s; simpl; congruence. Qed.

Lemma append_assoc (a b c : string) : (a ++ b) ++ c = a ++ (b ++ c).
Proof. induction a; simpl; congruence. Qed.

Lemma length_append (a b : string) :
  String.length (a ++ b) = (String.length a + String.length b)%nat.
Proof. induction a; simpl; congruence. Qed.

Lemma startsWith_spec s pre :
  startsWith s pre = true <-> exists rest, s = pre ++ rest.
Proof.
  unfold startsWith. revert s. induction pre as [|c pre IH]; intros s; simpl.
  - split; [intros _; now exists s | intros _; now destruct s].
  - destruct s as [|d s];
      [split; [discriminate | intros [r Hr]; discriminate]|].
    simpl. destruct (ascii_dec c d) as [->|Hne].
    + rewrite IH. split; intros [r Hr]; exists r; simpl in *; congruence.
    + split; [discriminate | intros [r Hr]; simpl in Hr; congruence].
Qed.

Lemma append_eq_nil (a b : string) : EmptyString = a ++ b -> a = EmptyString /\ b = EmptyString.
Proof. destruct a; simpl; [intros <-; tauto | discriminate]. Qed.

Lemma endsWith_aux_spec fuel s suf :
  (String.length s <= fuel)%nat ->
  endsWith_aux fuel s suf = true <-> exists pre, s = pre ++ suf.
Proof.
  revert s. induction fuel as [|f IH]; intros s Hlen.
  - destruct s; [|simpl in Hlen; lia]. cbn [endsWith_aux].
    destruct (String.eqb_spec EmptyString suf) as [<-|Hne].
    + split; [now exists EmptyString | reflexivity].
    + split; [discriminate|]. intros [pre Hpre].
      apply append_eq_nil in Hpre as [_ ->]. congruence.
  - cbn [endsWith_aux]. destruct (String.eqb_spec s suf) as [->|Hne].
    + split; [now exists EmptyString | reflexivity].
    + destruct s as [|c s].
      * split; [discriminate|]. intros [pre Hpre].
        apply append_eq_nil in Hpre as [_ ->]. congruence.
      * simpl in Hlen. rewrite IH by lia.
        split; intros [pre Hpre].
        -- exists (String c pre). simpl. now rewrite Hpre.
        -- destruct pre as [|d pre]; simpl in Hpre; [congruence|].
           exists pre. congruence.
Qed.

Lemma endsWith_spec s suf :
  endsWith s suf = true <-> exists pre, s = pre ++ suf.
Proof. apply endsWith_aux_spec. lia. Qed.

End StringFacts.

(** ** The cache-header middleware *)

Lemma matches_static_asset_spec p :
  matches_static_asset p = true <-> has_static_extension p.
Proof.
  unfold matches_static_asset, has_static_extension.
  rewrite existsb_exists. split.
  - intros (ext & Hin & He). apply endsWith_spec in He as [pre Hpre].
    now exists pre, ext.
  - intros (pre & ext & Hin & Hp). exists ext. split; [exact Hin|].
    apply endsWith_spec. now exists pre.
Qed.

(** C2. For a path with a static-asset extension the middleware sets
    Cache-Control to exactly [public, max-age=3600]; otherwise, for a
    path under [/api/], to exactly [public, max-age=300]; otherwise the
    response is left as it was. Nothing else of the response changes and
    [next] is called exactly once in every case. *)
Theorem setCacheHeaders_spec (req : Request) (x : Exchange) :
  let x' := setCacheHeaders req x in
  nextCalls x' = S (nextCalls x) /\
  (has_static_extension (path req) ->
     response x' = set "Cache-Control" "public, max-age=3600" (response x) /\
     resHeaders (response x') !! "Cache-Control"
       = Some "public, max-age=3600") /\
  (~ has_static_extension (path req) -> has_api_prefix (path req) ->
     response x' = set "Cache-Control" "public, max-age=300" (response x) /\
     resHeaders (response x') !! "Cache-Control"
       = Some "public, max-age=300") /\
  (~ has_static_extension (path req) -> ~ has_api_prefix (path req) ->
     response x' = response x).
Proof.
  unfold setCacheHeaders.
  destruct (matches_static_asset (path req)) eqn:Hs.
  - apply matches_static_asset_spec in Hs. simpl.
    repeat split; try tauto. apply lookup_insert_eq.
  - assert (Hns : ~ has_static_extension (path req)).
    { rewrite <- matches_static_asset_spec. congruence. }
    destruct (startsWith (path req) "/api/") eqn:Ha.
    + apply startsWith_spec in Ha. simpl.
      repeat split; try tauto. apply lookup_insert_eq.
    + assert (Hna : ~ has_api_prefix (path req)).
      { unfold has_api_prefix. rewrite <- startsWith_spec. congruence. }
      simpl. repeat split; tauto.
Qed.

Lemma setCacheHeaders_spec_witness :
  let x' := setCacheHeaders (request "/static/app.min.js") (start fresh) in
  has_static_extension "/static/app.min.js" /\
  resHeaders (response x') !! "Cache-Control" = Some "public, max-age=3600".
Proof.
  assert (H : has_static_extension "/static/app.min.js").
  { exists "/static/app.min", "js". split; [simpl; tauto | reflexivity]. }
  split; [exact H|].
  exact (proj2 (proj1 (proj2
    (setCacheHeaders_spec (request "/static/app.min.js") (start fresh))) H)).
Defined.

(** ** The size pattern *)

Section SizePattern.

Ltac by_bits c :=
  destruct c as [[] [] [] [] [] [] [] []]; try discriminate; try reflexivity.

Lemma digit_not_space c : is_digit c = true -> is_space c = false.
Proof. by_bits c. Qed.

Lemma digit_not_dot c : is_digit c = true -> Ascii.eqb c "." = false.
Proof. by_bits c. Qed.

Lemma digit_not_sign c :
  is_digit c = true -> Ascii.eqb c "-" = false /\ Ascii.eqb c "+" = false.
Proof. by_bits c; intros _; split; reflexivity. Qed.

Lemma space_not_digit c : is_space c = true -> is_digit c = false.
Proof. by_bits c. Qed.

Lemma space_not_dot c : is_space c = true -> Ascii.eqb c "." = false.
Proof. by_bits c. Qed.

Lemma unit_head u :
  In u unit_names ->
  exists c r, u = String c r /\ is_digit c = false /\ is_space c = false /\
              Ascii.eqb c "." = false.
Proof.
  simpl. intros [<-|[<-|[<-|[<-|[]]]]]; eexists _, _; repeat split.
Qed.

Lemma after_char_spec c s r : after_char c s = Some r <-> s = String c r.
Proof.
  destruct s as [|d s]; simpl; [split; discriminate|].
  destruct (Ascii.eqb_spec d c) as [->|Hne]; split; congruence.
Qed.

Lemma after_char_none c d s :
  Ascii.eqb d c = false -> after_char c (String d s) = None.
Proof. simpl. now intros ->. Qed.

Lemma size_pattern_sound s g1 g2 :
  size_pattern s = Some (g1, g2) -> size_syntax s g1 g2.
Proof.
  unfold size_pattern.
  destruct (span is_digit s) as [ip r1] eqn:Hip.
  apply span_spec in Hip as (-> & Hdig & Hstop).
  destruct ip as [|c0 ip0] eqn:Eip; [discriminate|]. rewrite <- Eip in *.
  assert (Hne : ip <> EmptyString) by (subst; discriminate).
  clear Eip.
  set (tail := match after_char "." r1 with
               | Some r => let '(fp, r') := span is_digit r in
                           match fp with
                           | EmptyString => (ip, r1)
                           | String _ _ => (ip ++ "." ++ fp, r')
                           end
               | None => (ip, r1)
               end).
  assert (Htail : exists frac r2, tail = (ip ++ frac, r2) /\ fraction frac /\
                    r1 = frac ++ r2).
  { subst tail. destruct (after_char "." r1) as [r|] eqn:Hdot.
    - apply after_char_spec in Hdot as ->.
      destruct (span is_digit r) as [fp r'] eqn:Hfp.
      apply span_spec in Hfp as (-> & Hfd & _).
      destruct fp as [|d fp0] eqn:Efp.
      + exists EmptyString, (String "." r'). rewrite append_nil_r.
        split; [reflexivity | split; [now left | reflexivity]].
      + rewrite <- Efp in *. exists ("." ++ fp), r'.
        split; [reflexivity | split].
        * right. exists fp.
          split; [subst; discriminate | split; [exact Hfd | reflexivity]].
        * simpl. reflexivity.
    - exists EmptyString, r1. rewrite append_nil_r.
      split; [reflexivity | split; [now left | reflexivity]]. }
  destruct Htail as (frac & r2 & -> & Hfrac & ->).
  destruct (span is_space r2) as [ws r3] eqn:Hws.
  apply span_spec in Hws as (-> & Hsp & _).
  intros H. exists ip, frac, ws, r3.
  destruct r3 as [|c3 r3'] eqn:E3.
  - inversion H; subst. repeat split; try assumption. now left.
  - rewrite <- E3 in *.
    destruct (existsb (String.eqb r3) unit_names) eqn:Hu; [|discriminate].
    inversion H; subst g1 g2. repeat split; try assumption.
    right. split; [|reflexivity].
    apply existsb_exists in Hu as (u & Hin & Heq).
    apply String.eqb_eq in Heq. now subst.
Qed.

Lemma stops_digit_after_fraction ws u g2 :
  all_of is_space ws = true -> unit_suffix u g2 ->
  stops is_digit (ws ++ u) /\ after_char "." (ws ++ u) = None /\
  stops is_space u.
Proof.
  intros Hws Hu.
  assert (Hu' : stops is_digit u /\ after_char "." u = None /\
                stops is_space u).
  { destruct Hu as [[-> _]|[Hin _]]; [repeat split|].
    destruct (unit_head u Hin) as (c & r & -> & Hd & Hs & Hdot).
    simpl. rewrite Hdot. repeat split; assumption. }
  destruct ws as [|c ws]; [exact Hu'|].
  simpl in Hws. apply andb_true_iff in Hws as [Hc _].
  simpl. rewrite (space_not_dot c Hc).
  repeat split; [now apply space_not_digit | apply Hu'].
Qed.

Lemma size_pattern_complete s g1 g2 :
  size_syntax s g1 g2 -> size_pattern s = Some (g1, g2).
Proof.
  intros (ip & frac & ws & u & Hne & Hip & Hfrac & Hws & Hu & -> & ->).
  destruct (stops_digit_after_fraction ws u g2 Hws Hu) as (Hsd & Hnd & Hsu).
  unfold size_pattern.
  assert (Hstop : stops is_digit (frac ++ ws ++ u)).
  { destruct Hfrac as [->|(fd & _ & _ & ->)]; [exact Hsd | reflexivity]. }
  rewrite (span_app _ _ _ Hip Hstop).
  destruct ip as [|c0 ip0] eqn:Eip; [congruence|]. rewrite <- Eip in *.
  clear Eip c0 ip0.
  assert (Hfinal :
    (let '(_, r3) := span is_space (ws ++ u) in
     match r3 with
     | EmptyString => Some (ip ++ frac, None)
     | String _ _ => if existsb (String.eqb r3) unit_names
                     then Some (ip ++ frac, Some r3) else None
     end) = Some (ip ++ frac, g2)).
  { rewrite (span_app _ _ _ Hws Hsu).
    destruct Hu as [[-> ->]|[Hin ->]]; [reflexivity|].
    destruct (unit_head u Hin) as (c & r & -> & _).
    replace (existsb _ _) with true; [reflexivity|].
    symmetry. apply existsb_exists. eexists. split; [exact Hin|].
    apply String.eqb_refl. }
  destruct Hfrac as [->|(fd & Hfne & Hfd & ->)].
  - simpl (_ ++ _). rewrite Hnd. rewrite append_nil_r in *. exact Hfinal.
  - change (("." ++ fd) ++ ws ++ u) with (String "." (fd ++ ws ++ u)).
    unfold after_char. rewrite Ascii.eqb_refl, (span_app _ _ _ Hfd Hsd).
    destruct fd as [|d fd0] eqn:Efd; [congruence|]. rewrite <- Efd in *.
    exact Hfinal.
Qed.

Lemma size_pattern_none s :
  size_pattern s = None <-> ~ matches_size_syntax s.
Proof.
  split.
  - intros Hn (g1 & g2 & H). apply size_pattern_complete in H. congruence.
  - intros Hn. destruct (size_pattern s) as [[g1 g2]|] eqn:H; [|reflexivity].
    exfalso. apply Hn. exists g1, g2. now apply size_pattern_sound.
Qed.

End SizePattern.

(** ** Numbers *)

Section NumberFacts.

Lemma binary_round_aux_not_negative m e l :
  not_negative (binary_round_aux prec emax false m e l) = true.
Proof.
  unfold binary_round_aux.
  destruct (shr_fexp prec emax m e l) as [mrs e'].
  destruct (shr_fexp prec emax _ e' loc_Exact) as [mrs' e''].
  destruct (shr_m mrs'); [reflexivity| |reflexivity].
  now destruct (e'' <=? emax - prec).
Qed.

Lemma of_Z_signed_not_negative b z :
  0 <= z -> not_negative (of_Z_signed b z) = true.
Proof.
  intros Hz. unfold of_Z_signed, binary_normalize.
  destruct z as [|p|p]; [reflexivity| |lia].
  unfold binary_round.
  destruct (shl_align p 0 _) as [mz ez].
  apply binary_round_aux_not_negative.
Qed.

Lemma of_ratio_not_negative n d : not_negative (of_ratio false n d) = true.
Proof.
  unfold of_ratio. destruct n as [|p]; [reflexivity|].
  destruct (SFdiv_core_binary prec emax (Z.pos p) 0 (Z.pos d) 0) as [[q e] l].
  apply binary_round_aux_not_negative.
Qed.

Lemma number_of_decimal_not_negative n e10 :
  not_negative (number_of_decimal false n e10) = true.
Proof.
  unfold number_of_decimal. destruct (0 <=? e10) eqn:He.
  - apply of_Z_signed_not_negative. simpl.
    apply Z.mul_nonneg_nonneg; [lia|]. apply Z.pow_nonneg. lia.
  - apply of_ratio_not_negative.
Qed.

Lemma parseFloat_unsigned s :
  fst (take_sign (trimStart s)) = false -> not_negative (parseFloat s) = true.
Proof.
  unfold parseFloat. destruct (take_sign (trimStart s)) as [neg s'].
  simpl. intros ->.
  destruct (String.prefix "Infinity" s'); [reflexivity|].
  destruct (span is_digit s') as [ip r1].
  destruct (match after_char "." r1 with
            | Some r => span is_digit r
            | None => (EmptyString, r1)
            end) as [fp r2].
  destruct (ip ++ fp); [reflexivity|].
  apply number_of_decimal_not_negative.
Qed.

Lemma parseFloat_digit_first c s :
  is_digit c = true -> not_negative (parseFloat (String c s)) = true.
Proof.
  intros Hc. apply parseFloat_unsigned.
  unfold trimStart. simpl. rewrite (digit_not_space c Hc). simpl.
  destruct (digit_not_sign c Hc) as [-> ->]. reflexivity.
Qed.

Lemma mul_not_negative x m e :
  not_negative x = true ->
  not_negative (mul x (S754_finite false m e)) = true.
Proof.
  destruct x as [s|s| |s mx ex]; simpl; try reflexivity.
  - now destruct s.
  - destruct s; [discriminate|]. intros _.
    apply binary_round_aux_not_negative.
Qed.

Lemma floor_not_negative x :
  not_negative x = true -> not_negative (floor x) = true.
Proof.
  destruct x as [s|s| |s m e]; simpl; try tauto.
  destruct s; [discriminate|]. intros _.
  destruct (0 <=? e); [reflexivity|].
  apply of_Z_signed_not_negative. simpl. apply Z.shiftr_nonneg. lia.
Qed.

Lemma units_positive u v :
  units u = Some v -> exists m e, v = S754_finite false m e.
Proof.
  unfold units.
  repeat (destruct (String.eqb u _);
          [intros [= <-]; vm_compute; eauto|]).
  discriminate.
Qed.

Lemma compare_cont_antisym p q c :
  Pos.compare_cont (CompOpp c) q p = CompOpp (Pos.compare_cont c p q).
Proof. symmetry. apply Pos.compare_cont_antisym. Qed.

(** Comparing the other way round gives the opposite order. *)
Lemma SFcompare_antisym x y :
  SFcompare y x = option_map CompOpp (SFcompare x y).
Proof.
  destruct x as [sx|sx| |sx mx ex], y as [sy|sy| |sy my ey]; simpl;
    try reflexivity; try (destruct sx; reflexivity);
    try (destruct sy; reflexivity); try (destruct sx, sy; reflexivity).
  destruct sx, sy; simpl; try reflexivity;
    rewrite (Z.compare_antisym ey ex);
    destruct (ey ?= ex); simpl; try reflexivity;
    rewrite <- (compare_cont_antisym mx my Eq); simpl; try reflexivity.
Qed.

Lemma gt_not_negative_truthy x y :
  not_negative y = true -> gt x y = true -> truthy x = true.
Proof.
  unfold gt, SFltb.
  destruct x as [sx|sx| |sx mx ex], y as [sy|sy| |sy my ey]; simpl;
    try reflexivity; try discriminate; destruct sy; try discriminate.
Qed.

Lemma leb_not_gt x y : SFleb x y = true -> gt x y = false.
Proof.
  unfold gt, SFleb, SFltb. rewrite (SFcompare_antisym x y).
  destruct (SFcompare x y) as [[]|]; simpl; congruence.
Qed.

End NumberFacts.

(** ** parseSize and the request-size limiter *)

Lemma size_syntax_digit_first s g1 g2 :
  size_syntax s g1 g2 -> exists c r, g1 = String c r /\ is_digit c = true.
Proof.
  intros (ip & frac & ws & u & Hne & Hip & _ & _ & _ & _ & ->).
  destruct ip as [|c ip]; [congruence|].
  simpl in Hip. apply andb_true_iff in Hip as [Hc _].
  now exists c, (ip ++ frac).
Qed.

Lemma size_syntax_unit s g1 g2 :
  size_syntax s g1 g2 -> exists v, units (default "b" g2) = Some v.
Proof.
  intros (_ & _ & _ & u & _ & _ & _ & _ & [[_ ->]|[Hin ->]] & _).
  - now eexists.
  - simpl in Hin. destruct Hin as [<-|[<-|[<-|[<-|[]]]]]; now eexists.
Qed.

Lemma parseSize_not_negative size : not_negative (parseSize size) = true.
Proof.
  unfold parseSize.
  destruct (size_pattern (toLowerCase size)) as [[g1 g2]|] eqn:Hp;
    [|reflexivity].
  apply size_pattern_sound in Hp.
  destruct (size_syntax_digit_first _ _ _ Hp) as (c & r & -> & Hc).
  destruct (units (default "b" g2)) as [v|] eqn:Hv; [|reflexivity].
  destruct (units_positive _ _ Hv) as (m & e & ->).
  apply floor_not_negative, mul_not_negative.
  now apply parseFloat_digit_first.
Qed.

(** C3. The unit table is b:1, kb:1024, mb:1024*1024, gb:1024*1024*1024;
    [parseSize "10mb"] is 10485760 and [parseSize "1kb"] is 1024; a string
    whose lower-case form is not a number followed by an optional unit,
    ["bogus"] among them, gives 0; a string of that form gives the floor
    of its number times the table entry of its unit (b when absent). *)
Theorem parseSize_spec :
  (units "b" = Some (of_Z 1) /\
   units "kb" = Some (of_Z 1024) /\
   units "mb" = Some (of_Z (1024 * 1024)) /\
   units "gb" = Some (of_Z (1024 * 1024 * 1024)) /\
   forall u, ~ In u unit_names -> units u = None) /\
  parseSize "10mb" = of_Z 10485760 /\
  parseSize "1kb" = of_Z 1024 /\
  parseSize "bogus" = of_Z 0 /\
  (forall size, ~ matches_size_syntax (toLowerCase size) ->
     parseSize size = of_Z 0) /\
  (forall size g1 g2, size_syntax (toLowerCase size) g1 g2 ->
     exists factor, units (default "b" g2) = Some factor /\
       parseSize size = floor (mul (parseFloat g1) factor)).
Proof.
  split; [|split; [|split; [|split; [|split]]]].
  - split; [|split; [|split; [|split]]]; try (vm_compute; reflexivity).
    intros u Hu. unfold units.
    destruct (String.eqb_spec u "b") as [->|_];
      [exfalso; apply Hu; simpl; tauto|].
    destruct (String.eqb_spec u "kb") as [->|_];
      [exfalso; apply Hu; simpl; tauto|].
    destruct (String.eqb_spec u "mb") as [->|_];
      [exfalso; apply Hu; simpl; tauto|].
    destruct (String.eqb_spec u "gb") as [->|_];
      [exfalso; apply Hu; simpl; tauto|].
    reflexivity.
  - vm_compute; reflexivity.
  - vm_compute; reflexivity.
  - vm_compute; reflexivity.
  - intros size Hn. apply size_pattern_none in Hn.
    unfold parseSize. now rewrite Hn.
  - intros size g1 g2 H.
    destruct (size_syntax_unit _ _ _ H) as [v Hv]. exists v.
    split; [exact Hv|].
    apply size_pattern_complete in H. unfold parseSize. now rewrite H, Hv.
Qed.

Lemma parseSize_spec_witness :
  (~ matches_size_syntax (toLowerCase "12 parsecs") /\
   parseSize "12 parsecs" = of_Z 0) /\
  (size_syntax (toLowerCase "1.5 KB") "1.5" (Some "kb") /\
   parseSize "1.5 KB" = of_Z 1536).
Proof.
  destruct parseSize_spec as (_ & _ & _ & _ & Hno & Hyes).
  assert (H1 : ~ matches_size_syntax (toLowerCase "12 parsecs")).
  { apply size_pattern_none. reflexivity. }
  assert (H2 : size_syntax (toLowerCase "1.5 KB") "1.5" (Some "kb")).
  { apply size_pattern_sound. reflexivity. }
  split; [split; [exact H1 | exact (Hno _ H1)]|].
  split; [exact H2|].
  destruct (Hyes _ _ _ H2) as (factor & Hf & ->).
  injection Hf as <-. vm_compute. reflexivity.
Defined.

(** C4. When the declared content-length parses to a number strictly
    greater than [parseSize] of the configured limit, the limiter answers
    with status 413 and the envelope carrying the limit string, and does
    not call [next]; when it parses to a number at or below that ceiling,
    the limiter calls [next] exactly once and leaves the response as it
    was. *)
Theorem requestSizeLimiter_spec
    (maxSize : option string) (req : Request) (x : Exchange) :
  let limit := default default_maxSize maxSize in
  let contentLength := parseInt (headers req !! "content-length") in
  (gt contentLength (parseSize limit) = true ->
     requestSizeLimiter maxSize req x =
       {| response :=
            {| statusCode := 413;
               resHeaders := resHeaders (response x);
               body := Some [("success", VBool false);
                             ("error", VStr "Request entity too large");
                             ("maxSize", VStr limit)] |};
          nextCalls := nextCalls x |}) /\
  (SFleb contentLength (parseSize limit) = true ->
     requestSizeLimiter maxSize req x =
       {| response := response x; nextCalls := S (nextCalls x) |}).
Proof.
  intros limit contentLength. unfold requestSizeLimiter.
  fold limit. fold contentLength. split; intros H.
  - rewrite H.
    rewrite (gt_not_negative_truthy _ _ (parseSize_not_negative limit) H).
    reflexivity.
  - rewrite (leb_not_gt _ _ H), andb_false_r. reflexivity.
Qed.

Lemma requestSizeLimiter_spec_witness :
  let over := requestSizeLimiter (Some "1kb") (request_with_length "1025")
                (start fresh) in
  let under := requestSizeLimiter (Some "1kb") (request_with_length "1024")
                 (start fresh) in
  (statusCode (response over) = 413 /\
   body (response over) = Some [("success", VBool false);
                                ("error", VStr "Request entity too large");
                                ("maxSize", VStr "1kb")] /\
   nextCalls over = 0%nat) /\
  (response under = fresh /\ nextCalls under = 1%nat).
Proof.
  destruct (requestSizeLimiter_spec (Some "1kb")
              (request_with_length "1025") (start fresh)) as [Hover _].
  destruct (requestSizeLimiter_spec (Some "1kb")
              (request_with_length "1024") (start fresh)) as [_ Hunder].
  cbv zeta. rewrite Hover by (vm_compute; reflexivity).
  rewrite Hunder by (vm_compute; reflexivity).
  repeat split.
Defined.

(** ** Promise.all *)

Section PromiseAll.

Context {A : Type}.

Local Open Scope list_scope.

Lemma filled_nil (vs : list A) : filled [] vs = replicate (length vs) None.
Proof.
  apply list_eq. intros j. unfold filled.
  rewrite list_lookup_imap.
  destruct (vs !! j) as [v|] eqn:Hj; simpl.
  - symmetry. apply lookup_replicate_2. now apply lookup_lt_Some in Hj.
  - symmetry. apply lookup_replicate_None. apply lookup_ge_None in Hj. lia.
Qed.

Lemma filled_insert done (vs : list A) i v :
  vs !! i = Some v ->
  <[i := Some v]> (filled done vs) = filled (done ++ [i]) vs.
Proof.
  intros Hi. apply list_eq. intros j. unfold filled.
  destruct (decide (j = i)) as [->|Hne].
  - rewrite list_lookup_insert_eq
      by (rewrite length_imap; now apply lookup_lt_Some in Hi).
    rewrite list_lookup_imap, Hi. simpl.
    rewrite bool_decide_eq_true_2; [reflexivity|].
    apply elem_of_app. right. apply list_elem_of_singleton. reflexivity.
  - rewrite list_lookup_insert_ne by congruence.
    rewrite !list_lookup_imap. destruct (vs !! j); [simpl|reflexivity].
    f_equal. rewrite (bool_decide_ext (j ∈ done) (j ∈ done ++ [i]));
      [reflexivity|].
    rewrite elem_of_app, list_elem_of_singleton. tauto.
Qed.

Lemma omap_imap_all (f : nat -> A -> option A) (vs : list A) :
  (forall j v, vs !! j = Some v -> f j v = Some v) ->
  omap id (imap f vs) = vs.
Proof.
  revert f. induction vs as [|v vs IH]; intros f Hf; [reflexivity|].
  simpl. rewrite (Hf 0%nat v eq_refl). simpl. f_equal.
  apply IH. intros j w Hj. apply (Hf (S j)). exact Hj.
Qed.

Lemma filled_all done (vs : list A) :
  (forall j, (j < length vs)%nat -> j ∈ done) ->
  omap id (filled done vs) = vs.
Proof.
  intros Hall. apply omap_imap_all. intros j v Hj.
  rewrite bool_decide_eq_true_2; [reflexivity|].
  apply Hall. now apply lookup_lt_Some in Hj.
Qed.

(** Fulfilments arriving in any order fill the array in index order. *)
Lemma all_fold_fulfilled (vs : list A) (evs : list (Arrival A)) :
  forall done st,
    values st = filled done vs ->
    remaining st = length evs ->
    result st = Pending ->
    Forall (fun a => exists v, outcome a = Fulfilled v /\
                               vs !! index a = Some v) evs ->
    (forall j, (j < length vs)%nat -> j ∈ done ++ (index <$> evs)) ->
    evs <> [] ->
    exists t, result (foldl all_step st evs) = Settles t (Fulfilled vs).
Proof.
  induction evs as [|a evs IH]; intros done st Hv Hr Hp Hall Hcov Hne;
    [congruence|].
  apply Forall_cons in Hall as [(v & Ho & Hi) Hall].
  assert (Hcov' : forall j, (j < length vs)%nat ->
                    j ∈ (done ++ [index a]) ++ (index <$> evs)).
  { intros j Hj. rewrite <- app_assoc. now apply Hcov. }
  simpl foldl. unfold all_step at 2. rewrite Hp, Ho, Hv, Hr.
  rewrite (filled_insert _ _ _ _ Hi). simpl length.
  replace (S (length evs) - 1)%nat with (length evs) by lia.
  destruct evs as [|b evs'].
  - simpl. exists (at_time a). do 2 f_equal. apply filled_all.
    intros j Hj. specialize (Hcov' j Hj). now rewrite app_nil_r in Hcov'.
  - apply (IH (done ++ [index a])); try reflexivity; try assumption.
    discriminate.
Qed.

(** Once every awaited input has arrived the whole is settled. *)
Lemma all_fold_settles (evs : list (Arrival A)) :
  forall st,
    (result st = Pending -> remaining st = length evs /\ evs <> []) ->
    result (foldl all_step st evs) <> Pending.
Proof.
  induction evs as [|a evs IH]; intros st H.
  - simpl. intros Hp. now destruct (H Hp).
  - simpl foldl. apply IH. unfold all_step.
    destruct (result st) eqn:Hp; [|congruence].
    destruct (H eq_refl) as [Hr _].
    destruct (outcome a); simpl; [|discriminate].
    rewrite Hr. simpl length.
    replace (S (length evs) - 1)%nat with (length evs) by lia.
    destruct evs; simpl; [discriminate|]. intros _. split; [reflexivity|].
    discriminate.
Qed.

Lemma arrivals_from_fulfilled i (ps : list (Promise A)) (vs : list A) :
  Forall2 fulfils ps vs ->
  index <$> arrivals_from i ps = seq i (length ps) /\
  Forall (fun a => (i <= index a)%nat /\
                   exists v, outcome a = Fulfilled v /\
                             vs !! (index a - i)%nat = Some v)
         (arrivals_from i ps).
Proof.
  intros H. revert i. induction H as [|p v ps vs [t ->] _ IH]; intros i.
  - split; [reflexivity | constructor].
  - destruct (IH (S i)) as [Hidx Hall]. simpl. split.
    + f_equal. exact Hidx.
    + constructor.
      * simpl. split; [lia|]. exists v. split; [reflexivity|].
        now replace (i - i)%nat with 0%nat by lia.
      * eapply Forall_impl; [exact Hall|].
        intros a (Hle & w & Ho & Hw). split; [lia|].
        exists w. split; [exact Ho|].
        replace (index a - i)%nat with (S (index a - S i)) by lia.
        exact Hw.
Qed.

Lemma arrivals_from_length i (ps : list (Promise A)) :
  Forall settles ps -> length (arrivals_from i ps) = length ps.
Proof.
  intros H. revert i. induction H as [|p ps Hp _ IH]; intros i;
    [reflexivity|].
  simpl. destruct p as [|t o]; [now destruct Hp|].
  simpl. now rewrite IH.
Qed.

Lemma Promise_all_nonempty (ps : list (Promise A)) :
  ps <> [] ->
  Promise_all ps
  = result (foldl all_step (all_init (length ps)) (completion_order ps)).
Proof. now destruct ps. Qed.

(** Promise.all on inputs that all fulfil gives their values in the
    order of the inputs, whatever the order in which they settle. *)
Lemma Promise_all_fulfilled (ps : list (Promise A)) (vs : list A) :
  Forall2 fulfils ps vs ->
  exists t, Promise_all ps = Settles t (Fulfilled vs).
Proof.
  intros H. pose proof (Forall2_length _ _ _ H) as Hlen.
  destruct (arrivals_from_fulfilled 0 ps vs H) as [Hidx Hall].
  destruct (decide (ps = [])) as [->|Hne].
  { apply Forall2_nil_inv_l in H as ->. now exists 0%nat. }
  rewrite (Promise_all_nonempty ps Hne).
  pose proof (merge_sort_Permutation earlier (arrivals_from 0 ps)) as Hperm.
  fold (completion_order ps) in Hperm.
  apply (all_fold_fulfilled vs _ []).
  - simpl. rewrite filled_nil. now rewrite Hlen.
  - simpl. rewrite Hperm, <- (length_fmap index), Hidx. now rewrite length_seq.
  - reflexivity.
  - rewrite Hperm. eapply Forall_impl; [exact Hall|].
    intros a (_ & v & Ho & Hv). exists v.
    now rewrite Nat.sub_0_r in Hv.
  - intros j Hj. simpl. rewrite Hperm, Hidx. apply elem_of_seq. lia.
  - intros Hnil. apply (f_equal length) in Hnil.
    rewrite Hperm, <- (length_fmap index), Hidx, length_seq in Hnil.
    now destruct ps.
Qed.

(** Promise.all on inputs that all settle is settled. *)
Lemma Promise_all_settles (ps : list (Promise A)) :
  Forall settles ps -> Promise_all ps <> Pending.
Proof.
  intros H. destruct (decide (ps = [])) as [->|Hne]; [discriminate|].
  rewrite (Promise_all_nonempty ps Hne).
  apply all_fold_settles. intros _. simpl.
  unfold completion_order.
  split.
  - now rewrite merge_sort_Permutation, arrivals_from_length.
  - intros Hnil. apply (f_equal length) in Hnil.
    rewrite merge_sort_Permutation, arrivals_from_length in Hnil by exact H.
    now destruct ps.
Qed.

End PromiseAll.

(** ** The batch processor *)

Section BatchProcess.

Context {A B : Type}.

Local Open Scope list_scope.

Implicit Types (items batch : list A) (processor : A -> Promise B).

(** From a non-negative index the chunk continues the items taken so
    far, whatever the clamping at the end of the array. *)
Lemma take_app_slice items (i b : Z) :
  0 <= i -> 0 <= b ->
  take (Z.to_nat i) items ++ slice items i (i + b)
  = take (Z.to_nat (i + b)) items.
Proof.
  intros Hi Hb. unfold slice.
  destruct (Z.ltb_spec i 0) as [?|_]; [lia|].
  destruct (Z.ltb_spec (i + b) 0) as [?|_]; [lia|].
  destruct (Z.le_gt_cases i (Z.of_nat (length items))) as [Hle|Hgt].
  - rewrite (Z.min_l i) by lia. rewrite take_take_drop. 
    destruct (Z.le_gt_cases (i + b) (Z.of_nat (length items))) as [Hle'|Hgt'].
    + rewrite Z.min_l by lia. f_equal. lia.
    + rewrite Z.min_r by lia. rewrite !take_ge by lia. reflexivity.
  - rewrite (Z.min_r i) by lia. rewrite Nat2Z.id, drop_all, take_nil.
    rewrite app_nil_r, !take_ge by lia. reflexivity.
Qed.

Lemma slice_subseteq items (i j : Z) : slice items i j ⊆ items.
Proof.
  unfold slice. etransitivity; [apply subseteq_take | apply subseteq_drop].
Qed.

Lemma slice_empty items (i : Z) : slice items i (i + 0) = [].
Proof.
  unfold slice. rewrite Z.add_0_r, Z.sub_diag. apply take_0.
Qed.

Lemma Forall2_fulfils_map processor (f : A -> B) batch :
  (forall x, x ∈ batch -> fulfils (processor x) (f x)) ->
  Forall2 fulfils (map processor batch) (map f batch).
Proof.
  induction batch as [|x batch IH]; intros H; simpl; constructor.
  - apply H. left.
  - apply IH. intros y Hy. apply H. now right.
Qed.

Lemma Forall_settles_map processor batch :
  (forall x, x ∈ batch -> settles (processor x)) ->
  Forall settles (map processor batch).
Proof.
  induction batch as [|x batch IH]; intros H; simpl; constructor.
  - apply H. left.
  - apply IH. intros y Hy. apply H. now right.
Qed.

(** With a chunk size of at least 1 and a processor that fulfils on
    every item, the loop ends within its fuel with the mapped items. *)
Lemma batchLoop_fulfilled items (b : Z) processor (f : A -> B) :
  1 <= b ->
  (forall x, x ∈ items -> fulfils (processor x) (f x)) ->
  forall fuel i now,
    0 <= i -> (length items - Z.to_nat i < fuel)%nat ->
    exists t,
      batchLoop fuel items b processor i now
        (map f (take (Z.to_nat i) items))
      = Some (Settles t (Fulfilled (map f items))).
Proof.
  intros Hb Hproc. induction fuel as [|fuel IH]; intros i now Hi Hfuel;
    [lia|].
  cbn [batchLoop].
  destruct (Z.ltb_spec i (Z.of_nat (length items))) as [Hlt|Hge].
  - destruct (Promise_all_fulfilled
                (map processor (slice items i (i + b)))
                (map f (slice items i (i + b)))) as [t ->].
    { apply Forall2_fulfils_map. intros x Hx. apply Hproc.
      eapply slice_subseteq, Hx. }
    rewrite <- map_app, take_app_slice by lia.
    apply IH; lia.
  - exists now. rewrite take_ge by lia. reflexivity.
Qed.

(** With a chunk size of at least 1 the loop ends within its fuel,
    whatever the processor does; the result is settled when every
    processor call settles. *)
Lemma batchLoop_terminates items (b : Z) processor :
  1 <= b ->
  forall fuel i now results,
    0 <= i -> (length items - Z.to_nat i < fuel)%nat ->
    exists r,
      batchLoop fuel items b processor i now results = Some r /\
      ((forall x, x ∈ items -> settles (processor x)) -> r <> Pending).
Proof.
  intros Hb. induction fuel as [|fuel IH]; intros i now results Hi Hfuel;
    [lia|].
  cbn [batchLoop].
  destruct (Z.ltb_spec i (Z.of_nat (length items))) as [Hlt|Hge].
  - destruct (Promise_all (map processor (slice items i (i + b))))
      as [|t [vs|r]] eqn:Hall.
    + eexists. split; [reflexivity|]. intros Hs. exfalso.
      revert Hall. apply Promise_all_settles, Forall_settles_map.
      intros x Hx. apply Hs. eapply slice_subseteq, Hx.
    + apply IH; lia.
    + eexists. split; [reflexivity | discriminate].
  - eexists. split; [reflexivity | discriminate].
Qed.

(** With a chunk size of 0 the index never moves. *)
Lemma batchLoop_zero_diverges items processor :
  items <> [] ->
  forall fuel now results,
    batchLoop fuel items 0 processor 0 now results = None.
Proof.
  intros Hne. induction fuel as [|fuel IH]; intros now results;
    [reflexivity|].
  cbn [batchLoop]. destruct (Z.ltb_spec 0 (Z.of_nat (length items))) as [_|Hge].
  - rewrite slice_empty. simpl. apply IH.
  - destruct items; [congruence | simpl in Hge; lia].
Qed.

(** With a negative chunk size the index moves away from the length. *)
Lemma batchLoop_negative_diverges items (b : Z) processor (f : A -> B) :
  b <= 0 -> items <> [] ->
  (forall x, x ∈ items -> fulfils (processor x) (f x)) ->
  forall fuel i now results,
    i <= 0 -> batchLoop fuel items b processor i now results = None.
Proof.
  intros Hb Hne Hproc. induction fuel as [|fuel IH]; intros i now results Hi;
    [reflexivity|].
  cbn [batchLoop]. destruct (Z.ltb_spec i (Z.of_nat (length items))) as [_|Hge].
  - destruct (Promise_all_fulfilled
                (map processor (slice items i (i + b)))
                (map f (slice items i (i + b)))) as [t ->].
    { apply Forall2_fulfils_map. intros x Hx. apply Hproc.
      eapply slice_subseteq, Hx. }
    apply IH. lia.
  - destruct items; [congruence | simpl in Hge; lia].
Qed.

End BatchProcess.

(** C5. For a chunk size of at least 1 and a processor that fulfils
    with [f x] on every item [x], whenever each call settles,
    batchProcess returns [f] mapped over the items in their original
    order; in particular doubling the numbers 1 to 5 in chunks of 2
    returns 2, 4, 6, 8, 10 for every choice of completion times. *)
Theorem batchProcess_spec :
  (forall (A B : Type) (items : list A) (batchSize : Z)
          (processor : A -> Promise B) (f : A -> B),
     1 <= batchSize ->
     (forall x, x ∈ items -> fulfils (processor x) (f x)) ->
     forall fuel, (length items < fuel)%nat ->
       exists t, batchProcess fuel items (Some batchSize) processor
                 = Some (Settles t (Fulfilled (map f items)))) /\
  (forall delay : Number -> nat,
     exists t, batchProcess 6 (map of_Z [1; 2; 3; 4; 5]) (Some 2)
                 (resolving (fun x => mul x (of_Z 2)) delay)
               = Some (Settles t (Fulfilled (map of_Z [2; 4; 6; 8; 10])))).
Proof.
  assert (H : forall (A B : Type) (items : list A) (batchSize : Z)
          (processor : A -> Promise B) (f : A -> B),
     1 <= batchSize ->
     (forall x, x ∈ items -> fulfils (processor x) (f x)) ->
     forall fuel, (length items < fuel)%nat ->
       exists t, batchProcess fuel items (Some batchSize) processor
                 = Some (Settles t (Fulfilled (map f items)))).
  { intros A B items batchSize processor f Hb Hproc fuel Hfuel.
    unfold batchProcess. simpl default.
    apply (batchLoop_fulfilled items batchSize processor f Hb Hproc
             fuel 0 0%nat); simpl; lia. }
  split; [exact H|].
  intros delay.
  replace (map of_Z [2; 4; 6; 8; 10])
    with (map (fun x => mul x (of_Z 2)) (map of_Z [1; 2; 3; 4; 5]))
    by (vm_compute; reflexivity).
  apply (H Number Number (map of_Z [1; 2; 3; 4; 5]) 2 _
           (fun x => mul x (of_Z 2))); [lia | | simpl; lia].
  intros x _. now exists (delay x).
Qed.

Lemma batchProcess_spec_witness :
  exists t, batchProcess 6 ["a"; "b"; "c"]%string (Some 2)
              (resolving String.length (fun s => (3 - String.length s)%nat))
            = Some (Settles t (Fulfilled [1; 1; 1]%nat)).
Proof.
  apply (proj1 batchProcess_spec string nat ["a"; "b"; "c"]%string 2
           _ String.length).
  - lia.
  - intros x _. now eexists.
  - simpl. lia.
Defined.

(** C10. With a chunk size of at least 1 the loop of batchProcess ends
    after at most one iteration per item and one more, for every list
    and processor, and what it returns is settled when every processor
    call settles. The bound on the chunk size is needed: on a non-empty
    list a chunk size of 0 keeps the loop running for ever with any
    processor, and so does a negative one when the processor fulfils. *)
Theorem batchProcess_terminates :
  (forall (A B : Type) (items : list A) (batchSize : Z)
          (processor : A -> Promise B),
     1 <= batchSize ->
     forall fuel, (length items < fuel)%nat ->
       exists r, batchProcess fuel items (Some batchSize) processor = Some r /\
         ((forall x, x ∈ items -> settles (processor x)) -> r <> Pending)) /\
  (forall (A B : Type) (items : list A) (processor : A -> Promise B),
     items <> [] ->
     forall fuel, batchProcess fuel items (Some 0) processor = None) /\
  (forall (A B : Type) (items : list A) (batchSize : Z)
          (processor : A -> Promise B) (f : A -> B),
     batchSize <= 0 -> items <> [] ->
     (forall x, x ∈ items -> fulfils (processor x) (f x)) ->
     forall fuel, batchProcess fuel items (Some batchSize) processor = None).
Proof.
  split; [|split].
  - intros A B items batchSize processor Hb fuel Hfuel.
    apply batchLoop_terminates; simpl; lia.
  - intros A B items processor Hne fuel.
    now apply batchLoop_zero_diverges.
  - intros A B items batchSize processor f Hb Hne Hproc fuel.
    apply (batchLoop_negative_diverges items batchSize processor f);
      simpl; trivial; lia.
Qed.

Lemma batchProcess_terminates_witness :
  (exists r, batchProcess 3 [5; 6]%nat (Some 1)
               (fun n => if (n =? 5)%nat then Settles 2 (Rejected NoMessage)
                         else Settles 1 (Fulfilled n)) = Some r /\
             r <> Pending) /\
  batchProcess 1000 [5; 6]%nat (Some 0) (fun n => @Pending nat) = None /\
  batchProcess 1000 [5; 6]%nat (Some (-1)) (resolving S id) = None.
Proof.
  destruct batchProcess_terminates as (Hterm & Hzero & Hneg).
  split; [|split].
  - destruct (Hterm nat nat [5; 6]%nat 1
                (fun n => if (n =? 5)%nat then Settles 2 (Rejected NoMessage)
                          else Settles 1 (Fulfilled n)))
      with (fuel := 3%nat) as (r & Hr & Hs); [lia | simpl; lia |].
    exists r. split; [exact Hr|]. apply Hs.
    intros x _. unfold settles. now destruct (x =? 5)%nat.
  - apply Hzero. discriminate.
  - apply (Hneg nat nat [5; 6]%nat (-1) (resolving S id) S);
      [lia | discriminate |].
    intros x _. now eexists.
Defined.

(** ** The timeout wrapper *)

(** C6. When the timer fires before the operation settles, withTimeout
    rejects, at the time the timer fires, with an error whose message
    is [Operation timed out after <timeoutMs>ms], the bound printed as
    a template literal prints a number: with all its digits for every
    integer up to 2^53 in size, and for instance as [1e+21] for 10^21.
    When the operation fulfils before the timer fires, withTimeout
    fulfils with the operation's value. An operation that fulfils after
    50 ms is rejected under a bound of 10 ms and passes under one of
    100 ms. *)
Theorem withTimeout_spec (A : Type) (tie : bool) (operation : Promise A)
    (timeoutMs : Z) :
  (unsettled_at (timer_delay timeoutMs) operation ->
     withTimeout tie operation (Some timeoutMs)
     = Settles (timer_delay timeoutMs)
         (Rejected (Error ("Operation timed out after "
                           ++ Number_toString timeoutMs ++ "ms")))) /\
  (Z.abs timeoutMs <= 2 ^ 53 ->
     Number_toString timeoutMs = pretty timeoutMs) /\
  Number_toString (10 ^ 21) = "1e+21" /\
  (forall t v, operation = Settles t (Fulfilled v) ->
     (t < timer_delay timeoutMs)%nat ->
     withTimeout tie operation (Some timeoutMs) = Settles t (Fulfilled v)) /\
  (forall v : A,
     withTimeout tie (Settles 50 (Fulfilled v)) (Some 10)
     = Settles 10 (Rejected (Error "Operation timed out after 10ms")) /\
     withTimeout tie (Settles 50 (Fulfilled v)) (Some 100)
     = Settles 50 (Fulfilled v)).
Proof.
  unfold withTimeout, timeout_message. simpl default.
  split; [|split; [|split; [|split]]].
  - destruct operation as [|t o]; simpl; [reflexivity|]. intros Hlt.
    destruct (Nat.ltb_spec t (timer_delay timeoutMs)); [lia|].
    destruct (Nat.ltb_spec (timer_delay timeoutMs) t); [reflexivity | lia].
  - intros Hb. unfold Number_toString.
    destruct (Z.leb_spec (Z.abs timeoutMs) (2 ^ 53)); [reflexivity | lia].
  - vm_compute. reflexivity.
  - intros t v -> Hlt. simpl.
    destruct (Nat.ltb_spec t (timer_delay timeoutMs)); [reflexivity | lia].
  - intros v. split; reflexivity.
Qed.

Lemma withTimeout_spec_witness :
  withTimeout true (@Pending nat) (Some 250)
  = Settles 250 (Rejected (Error "Operation timed out after 250ms")) /\
  Number_toString 250 = "250" /\
  withTimeout false (Settles 7 (Fulfilled 42%nat)) (Some 250)
  = Settles 7 (Fulfilled 42%nat).
Proof.
  split; [|split].
  - apply (proj1 (withTimeout_spec nat true Pending 250)). exact I.
  - apply (proj1 (proj2 (withTimeout_spec nat true Pending 250))).
    vm_compute. discriminate.
  - apply (proj1 (proj2 (proj2 (proj2 (withTimeout_spec nat false
                           (Settles 7 (Fulfilled 42%nat)) 250)))));
      [reflexivity | vm_compute; lia].
Defined.

(** ** The connection cache *)

Section CacheFacts.

Context {Handle DriverState : Type}.
Variable readyState : DriverState -> Z.
Variable mongoose_connect :
  option string -> ConnectionOptions -> DriverState ->
  (Handle + Thrown) * DriverState.
Variable connection_close : DriverState -> (unit + Thrown) * DriverState.

Local Open Scope list_scope.

Abbreviation W := (World Handle DriverState).
Abbreviation connect := (connectToDatabase readyState mongoose_connect).
Abbreviation close := (closeConnection connection_close).
Abbreviation reuse := (reuses readyState).
Abbreviation reach :=
  (reachable readyState mongoose_connect connection_close).

Lemma connect_reuse w :
  reuse w = true ->
  connect w = (inl (cachedConnection w), record (Console UsingCached) w).
Proof.
  unfold reuses, connectToDatabase, bind, gets, console, modify.
  intros ->. reflexivity.
Qed.

Lemma connect_established w h d :
  reuse w = false ->
  mongoose_connect (MONGODB_URI w) connectionOptions (driver w) = (inl h, d) ->
  connect w =
  (inl (Some h),
   on "reconnected" OnReconnected
     (on "disconnected" OnDisconnected
        (on "error" OnError
           (record (Console Connected)
              (set_cached (Some h) (set_driver d (asked w))))))).
Proof.
  unfold reuses, connectToDatabase, bind, gets, console, modify, try_catch,
    call_connect.
  intros -> Hc. simpl. rewrite Hc. reflexivity.
Qed.

Lemma connect_failed w e d :
  reuse w = false ->
  mongoose_connect (MONGODB_URI w) connectionOptions (driver w) = (inr e, d) ->
  connect w =
  (inr e,
   set_cached None
     (record (Console (ConnectionFailed e)) (set_driver d (asked w)))).
Proof.
  unfold reuses, connectToDatabase, bind, gets, console, modify, try_catch,
    call_connect, throw.
  intros -> Hc. simpl. rewrite Hc. reflexivity.
Qed.

Lemma connect_calls_app t1 t2 :
  connect_calls (t1 ++ t2) = (connect_calls t1 + connect_calls t2)%nat.
Proof. unfold connect_calls. now rewrite List.filter_app, length_app. Qed.

Lemma close_calls_app t1 t2 :
  close_calls (t1 ++ t2) = (close_calls t1 + close_calls t2)%nat.
Proof. unfold close_calls. now rewrite List.filter_app, length_app. Qed.

Ltac count_calls :=
  simpl; rewrite ?connect_calls_app, ?close_calls_app;
  unfold connect_calls, close_calls; simpl; lia.

Lemma connect_calls_asked (w : W) :
  connect_calls (trace (asked w)) = S (connect_calls (trace w)).
Proof. count_calls. Qed.

(** What a call of connect does, by cases. *)
Lemma connect_cases w :
  (reuse w = true /\
   connect w = (inl (cachedConnection w), record (Console UsingCached) w)) \/
  (reuse w = false /\
   exists r w', connect w = (r, w') /\
     connect_calls (trace w') = S (connect_calls (trace w)) /\
     ((exists h, r = inl (Some h) /\ cachedConnection w' = Some h /\
                 listeners w' = listeners w ++ observers) \/
      (exists e, r = inr e /\ cachedConnection w' = None /\
                 listeners w' = listeners w))).
Proof.
  destruct (reuse w) eqn:Hr;
    [left; split; [reflexivity|]; now apply connect_reuse|].
  right. split; [reflexivity|].
  destruct (mongoose_connect (MONGODB_URI w) connectionOptions (driver w))
    as [[h|e] d] eqn:Hc.
  - rewrite (connect_established w h d Hr Hc). eexists _, _.
    split; [reflexivity|]. split.
    + count_calls.
    + left. exists h. simpl. rewrite <- !app_assoc. repeat split.
  - rewrite (connect_failed w e d Hr Hc). eexists _, _.
    split; [reflexivity|]. split.
    + count_calls.
    + right. exists e. repeat split.
Qed.

Lemma close_cases w :
  (cachedConnection w = None /\ close w = (inl tt, w)) \/
  (exists c d, cachedConnection w = Some c /\
     connection_close (driver w) = (inl tt, d) /\
     close w = (inl tt,
                record (Console ConnectionClosed)
                  (set_cached None
                     (set_driver d (record DriverClose w))))) \/
  (exists (c : Handle) (e : Thrown) (d : DriverState),
     cachedConnection w = Some c /\
     connection_close (driver w) = (inr e, d) /\
     close w = (inl tt, record (Console (CloseError e))
                          (set_driver d (record DriverClose w)))).
Proof.
  unfold closeConnection, bind, gets, ret, try_catch, call_close, console,
    modify.
  destruct (cachedConnection w) as [c|] eqn:Hc; simpl; [|now left].
  right. destruct (connection_close (driver w)) as [[[]|e] d] eqn:Hcl.
  - left. exists c, d. repeat split.
  - right. exists c, e, d. repeat split.
Qed.

(** Observers never put a handle into the cache and never touch the
    list of observers. *)
Lemma emit_fold_listeners name arg (l : list (string * Observer)) (w : W) :
  listeners
    (foldl (fun w '(n, o) => if String.eqb n name then observe o arg w else w)
       w l) = listeners w.
Proof.
  revert w. induction l as [|[n o] l IH]; intros w; [reflexivity|].
  simpl. rewrite IH. destruct (String.eqb n name); [|reflexivity].
  now destruct o.
Qed.

Lemma emit_fold_null name arg (l : list (string * Observer)) (w : W) :
  cachedConnection w = None ->
  cachedConnection
    (foldl (fun w '(n, o) => if String.eqb n name then observe o arg w else w)
       w l) = None.
Proof.
  revert w. induction l as [|[n o] l IH]; intros w Hw; [exact Hw|].
  simpl. apply IH. destruct (String.eqb n name); [|exact Hw].
  now destruct o.
Qed.

Lemma emit_fold_disconnected arg (l : list (string * Observer)) (w : W) :
  In ("disconnected", OnDisconnected) l ->
  cachedConnection
    (foldl (fun w '(n, o) =>
              if String.eqb n "disconnected" then observe o arg w else w)
       w l) = None.
Proof.
  revert w. induction l as [|[n o] l IH]; intros w []; simpl.
  - injection H as -> ->. simpl. now apply emit_fold_null.
  - now apply IH.
Qed.

Lemma emit_fold_cache name arg (l : list (string * Observer)) (w : W) :
  let w' := foldl (fun w '(n, o) =>
                     if String.eqb n name then observe o arg w else w) w l in
  cachedConnection w' = None \/ cachedConnection w' = cachedConnection w.
Proof.
  revert w. induction l as [|[n o] l IH]; intros w; [now right|].
  simpl. destruct (String.eqb n name); [|apply IH].
  destruct o; simpl.
  - left. now apply emit_fold_null.
  - left. now apply emit_fold_null.
  - apply (IH (record (Console Reconnected) w)).
Qed.

(** Every reachable world keeps a cached handle under watch. *)
Lemma reachable_guarded w : reach w -> cache_guarded w.
Proof.
  unfold cache_guarded. induction 1 as [d uri|w _ IH|w _ IH|name arg d w _ IH].
  - discriminate.
  - destruct (connect_cases w) as [[_ ->]|(_ & r & w' & -> & _ & Hc)].
    + exact IH.
    + simpl. destruct Hc as [(h & _ & _ & ->)|(e & _ & -> & _)];
        [|discriminate].
      intros _. apply in_or_app. right. simpl. tauto.
  - destruct (close_cases w)
      as [[_ ->]|[(c & d & _ & _ & ->)|(c & e & d & Hc & _ & ->)]].
    + exact IH.
    + discriminate.
    + simpl. exact IH.
  - unfold driver_event, emit. rewrite emit_fold_listeners. simpl.
    destruct (emit_fold_cache name arg (listeners w) (set_driver d w))
      as [->| ->]; [discriminate | exact IH].
Qed.

(** C7. connect returns the cached connection without asking the driver
    exactly when the cached handle is non-null and the readiness state
    is 1; otherwise it asks the driver once and, when the driver
    establishes the connection, returns it, stores it in the cache and
    registers the error, disconnected and reconnected observers. After a
    disconnected event, which the driver announces in its disconnected
    state, isConnected is false, the cache is null, and the next connect
    asks the driver again and returns and caches what it establishes. *)
Theorem connectToDatabase_spec :
  (forall w : W,
     (non_null (cachedConnection w) = true /\ readyState (driver w) = 1) <->
     (fst (connect w) = inl (cachedConnection w) /\
      connect_calls (trace (snd (connect w))) = connect_calls (trace w))) /\
  (forall w : W,
     ~ (non_null (cachedConnection w) = true /\ readyState (driver w) = 1) ->
     connect_calls (trace (snd (connect w))) = S (connect_calls (trace w)) /\
     forall h d,
       mongoose_connect (MONGODB_URI w) connectionOptions (driver w)
       = (inl h, d) ->
       fst (connect w) = inl (Some h) /\
       cachedConnection (snd (connect w)) = Some h /\
       listeners (snd (connect w)) = listeners w ++ observers) /\
  (forall (w : W) d,
     reach w ->
     states (readyState d) = Some "disconnected" ->
     let w1 := driver_event "disconnected" None d w in
     isConnected readyState w1 = false /\
     cachedConnection w1 = None /\
     connect_calls (trace (snd (connect w1))) = S (connect_calls (trace w1)) /\
     forall h d',
       mongoose_connect (MONGODB_URI w1) connectionOptions (driver w1)
       = (inl h, d') ->
       fst (connect w1) = inl (Some h) /\
       cachedConnection (snd (connect w1)) = Some h).
Proof using Type.
  assert (Hreuse : forall w : W,
    reuse w = true <->
    non_null (cachedConnection w) = true /\ readyState (driver w) = 1).
  { intros w. unfold reuses. rewrite andb_true_iff, Z.eqb_eq. reflexivity. }
  assert (Hfresh : forall w : W,
    reuse w = false ->
    connect_calls (trace (snd (connect w))) = S (connect_calls (trace w)) /\
    forall h d,
      mongoose_connect (MONGODB_URI w) connectionOptions (driver w)
      = (inl h, d) ->
      fst (connect w) = inl (Some h) /\
      cachedConnection (snd (connect w)) = Some h /\
      listeners (snd (connect w)) = listeners w ++ observers).
  { intros w Hr. split.
    - destruct (connect_cases w) as [[Hr' _]|(_ & r & w' & -> & Hn & _)];
        [congruence | exact Hn].
    - intros h d Hc. rewrite (connect_established w h d Hr Hc). simpl.
      rewrite <- !app_assoc. repeat split. }
  split; [|split].
  - intros w. rewrite <- Hreuse. split.
    + intros Hr. rewrite (connect_reuse w Hr). simpl. split; [reflexivity|].
      count_calls.
    + intros [_ Hn]. destruct (reuse w) eqn:Hr; [reflexivity|].
      destruct (Hfresh w Hr) as [Hs _]. lia.
  - intros w Hn. apply Hfresh. rewrite <- Hreuse in Hn.
    now destruct (reuse w).
  - intros w d Hw Hd w1.
    assert (Hnull : cachedConnection w1 = None).
    { subst w1. unfold driver_event, emit.
      destruct (cachedConnection w) as [c|] eqn:Hc.
      - apply emit_fold_disconnected. simpl.
        apply (reachable_guarded w Hw). now rewrite Hc.
      - now apply emit_fold_null. }
    assert (Hrs : readyState (driver w1) = readyState d).
    { subst w1. unfold driver_event, emit.
      generalize (listeners (set_driver d w)). intros l.
      change d with (driver (set_driver d w)) at 2.
      generalize (set_driver d w). clear. intros w. revert w.
      induction l as [|[n o] l IH]; intros w; [reflexivity|].
      simpl. rewrite IH. destruct (String.eqb n "disconnected");
        [|reflexivity].
      now destruct o. }
    assert (Hzero : readyState d = 0).
    { unfold states in Hd.
      destruct (Z.eqb_spec (readyState d) 0); [assumption|].
      destruct (readyState d =? 1); [discriminate|].
      destruct (readyState d =? 2); [discriminate|].
      destruct (readyState d =? 3); discriminate. }
    assert (Hr : reuse w1 = false).
    { unfold reuses. now rewrite Hnull. }
    split; [|split; [exact Hnull|]].
    + unfold isConnected. rewrite Hrs, Hzero. reflexivity.
    + destruct (Hfresh w1 Hr) as [Hn Hest]. split; [exact Hn|].
      intros h d' Hc. destruct (Hest h d' Hc) as (? & ? & _). now split.
Qed.

(** C8. When connect asks the driver and the driver throws, connect
    throws the same error, the cache is null when it does, and no
    observer was registered; and whenever connect throws, the cache is
    null afterwards. *)
Theorem connectToDatabase_failure :
  (forall (w : W) e d,
     ~ (non_null (cachedConnection w) = true /\ readyState (driver w) = 1) ->
     mongoose_connect (MONGODB_URI w) connectionOptions (driver w)
     = (inr e, d) ->
     fst (connect w) = inr e /\
     cachedConnection (snd (connect w)) = None /\
     listeners (snd (connect w)) = listeners w /\
     In (Console (ConnectionFailed e)) (trace (snd (connect w)))) /\
  (forall (w : W) e,
     fst (connect w) = inr e -> cachedConnection (snd (connect w)) = None).
Proof using Type.
  split.
  - intros w e d Hn Hc.
    assert (Hr : reuse w = false).
    { unfold reuses. destruct (non_null _) eqn:H1; [|reflexivity].
      destruct (Z.eqb_spec (readyState (driver w)) 1); [|reflexivity].
      exfalso. apply Hn. now split. }
    rewrite (connect_failed w e d Hr Hc). simpl. repeat split.
    apply in_or_app. right. now left.
  - intros w e.
    destruct (connect_cases w) as [[_ ->]|(_ & r & w' & -> & _ & Hc)].
    + discriminate.
    + simpl. destruct Hc as [(h & -> & _)|(e' & _ & -> & _)];
        [discriminate | reflexivity].
Qed.

(** C9, amended. With a cached connection close calls the driver's
    teardown once; when the teardown succeeds the cache is null
    afterwards, when it throws the error is logged and the cached
    handle stays; without a cached connection close does nothing; in
    every case close returns normally. *)
Theorem closeConnection_spec (w : W) :
  fst (close w) = inl tt /\
  (cachedConnection w = None -> snd (close w) = w) /\
  (forall c, cachedConnection w = Some c ->
     close_calls (trace (snd (close w))) = S (close_calls (trace w)) /\
     (fst (connection_close (driver w)) = inl tt ->
        cachedConnection (snd (close w)) = None) /\
     (forall e, fst (connection_close (driver w)) = inr e ->
        cachedConnection (snd (close w)) = Some c /\
        In (Console (CloseError e)) (trace (snd (close w))))).
Proof using Type.
  destruct (close_cases w)
    as [[Hn ->]|[(c & d & Hc & Hd & ->)|(c & e & d & Hc & Hd & ->)]]; simpl.
  - split; [reflexivity|]. split; [reflexivity|]. congruence.
  - split; [reflexivity|]. split; [congruence|]. intros c' _.
    rewrite Hd. simpl. split; [count_calls|]. split; [reflexivity|].
    discriminate.
  - split; [reflexivity|]. split; [congruence|]. intros c' Hc'.
    rewrite Hd. simpl. split; [count_calls|]. split; [discriminate|].
    intros e' [= <-]. split; [congruence|].
    apply in_or_app. right. now left.
Qed.

End CacheFacts.

Lemma connectToDatabase_spec_witness :
  let w1 := driver_event "disconnected" None 0 Toy.warm in
  (cachedConnection Toy.warm = Some 7%nat /\
   fst (connectToDatabase Toy.readiness Toy.accepting Toy.warm)
   = inl (Some 7%nat)) /\
  (isConnected Toy.readiness w1 = false /\ cachedConnection w1 = None /\
   connect_calls
     (trace (snd (connectToDatabase Toy.readiness Toy.accepting w1)))
   = S (connect_calls (trace w1))).
Proof.
  destruct (connectToDatabase_spec Toy.readiness Toy.accepting Toy.closing)
    as (Hiff & Hfresh & Hevent).
  split.
  - split; [reflexivity|].
    apply (proj1 (Hiff Toy.warm)). split; reflexivity.
  - assert (Hw : reachable Toy.readiness Toy.accepting Toy.closing Toy.warm).
    { apply reach_connect, reach_initial. }
    destruct (Hevent Toy.warm 0 Hw eq_refl) as (H1 & H2 & H3 & _).
    exact (conj H1 (conj H2 H3)).
Defined.

Lemma connectToDatabase_failure_witness :
  fst (connectToDatabase Toy.readiness Toy.refusing Toy.cold)
  = inr (Error "ECONNREFUSED") /\
  cachedConnection (snd (connectToDatabase Toy.readiness Toy.refusing Toy.cold))
  = None.
Proof.
  destruct (proj1 (connectToDatabase_failure Toy.readiness Toy.refusing)
              Toy.cold (Error "ECONNREFUSED") 0) as (H1 & H2 & _).
  - intros [H _]. discriminate H.
  - reflexivity.
  - exact (conj H1 H2).
Defined.

(** C9 as written fails: when the teardown throws, the cached handle is
    still there after close. *)
Lemma closeConnection_claim_counterexample :
  ~ close_claim Toy.failing_close Toy.warm.
Proof.
  intros [H _]. destruct (H eq_refl) as [_ Hnull]. discriminate Hnull.
Qed.

Lemma closeConnection_spec_witness :
  cachedConnection (snd (closeConnection Toy.closing Toy.warm)) = None /\
  cachedConnection (snd (closeConnection Toy.failing_close Toy.warm))
  = Some 7%nat.
Proof.
  split.
  - destruct (closeConnection_spec Toy.closing Toy.warm) as (_ & _ & H).
    destruct (H 7%nat eq_refl) as (_ & Hok & _). apply Hok. reflexivity.
  - destruct (closeConnection_spec Toy.failing_close Toy.warm) as (_ & _ & H).
    destruct (H 7%nat eq_refl) as (_ & _ & Hfail).
    apply (Hfail (Error "topology was destroyed")). reflexivity.
Defined.

(** ** The database wrapper *)

Section WrapperFacts.

Context {Handle DriverState : Type}.
Variable readyState : DriverState -> Z.
Variable mongoose_connect :
  option string -> ConnectionOptions -> DriverState ->
  (Handle + Thrown) * DriverState.

Abbreviation C := (@Ctx Handle DriverState).
Abbreviation connecting :=
  (@in_world Handle DriverState _
     (connectToDatabase readyState mongoose_connect)).
Abbreviation wrapped := (withDatabase readyState mongoose_connect).

Lemma answered_response message error (c : C) :
  statusCode (response (exchange (answered message error c))) = 500 /\
  body (response (exchange (answered message error c)))
  = Some (database_failure (VStr message)) /\
  nextCalls (exchange (answered message error c)) = nextCalls (exchange c).
Proof. repeat split. Qed.

Lemma withDatabase_connect_throws (fn : Handler) req c message :
  fst (connecting c) = inr (Error message) ->
  wrapped fn req c
  = (inl RetResponse, answered message (Error message) (snd (connecting c))).
Proof.
  unfold withDatabase, try_catch, bind.
  destruct (connecting c) as [[conn|e] c1]; simpl; [discriminate|].
  intros [= ->]. reflexivity.
Qed.

Lemma withDatabase_handler_throws (fn : Handler) req c conn message :
  fst (connecting c) = inl conn ->
  fst (fn req (snd (connecting c))) = inr (Error message) ->
  wrapped fn req c
  = (inl RetResponse,
     answered message (Error message) (snd (fn req (snd (connecting c))))).
Proof.
  unfold withDatabase, try_catch, bind.
  destruct (connecting c) as [[conn'|e] c1]; simpl; [|discriminate].
  intros _. destruct (fn req c1) as [[v|e] c2]; simpl; [discriminate|].
  intros [= ->]. reflexivity.
Qed.

(** C1. When connect throws an error [e], or connect succeeds and the
    wrapped handler throws [e], the wrapper answers with status 500 and
    the envelope whose message is [e.message], and returns the response
    instead of a value of the handler; when it is connect that throws,
    the handler is not run at all; a handler that throws [Error("boom")]
    gets the message ["boom"]. *)
Theorem withDatabase_spec (fn : Handler) (req : Request) (c : C) :
  (forall message,
     fst (connecting c) = inr (Error message) \/
     (exists conn, fst (connecting c) = inl conn /\
        fst (fn req (snd (connecting c))) = inr (Error message)) ->
     fst (wrapped fn req c) = inl RetResponse /\
     statusCode (response (exchange (snd (wrapped fn req c)))) = 500 /\
     body (response (exchange (snd (wrapped fn req c))))
     = Some [("success", VBool false);
             ("error", VStr "Database operation failed");
             ("message", VStr message)]) /\
  (forall message,
     fst (connecting c) = inr (Error message) ->
     forall fn' : Handler, wrapped fn' req c = wrapped fn req c) /\
  (forall conn,
     fst (connecting c) = inl conn ->
     fst (fn req (snd (connecting c))) = inr (Error "boom") ->
     fst (wrapped fn req c) = inl RetResponse /\
     In ("message", VStr "boom")
        (default [] (body (response (exchange (snd (wrapped fn req c))))))).
Proof.
  split; [|split].
  - intros message [Hc|(conn & Hc & Hf)].
    + rewrite (withDatabase_connect_throws fn req c message Hc).
      repeat split.
    + rewrite (withDatabase_handler_throws fn req c conn message Hc Hf).
      repeat split.
  - intros message Hc fn'.
    now rewrite !(withDatabase_connect_throws _ req c message Hc).
  - intros conn Hc Hf.
    rewrite (withDatabase_handler_throws fn req c conn "boom" Hc Hf).
    split; [reflexivity|]. simpl. tauto.
Qed.

End WrapperFacts.

Lemma withDatabase_spec_witness :
  let out := withDatabase Toy.readiness Toy.accepting boom
               (request "/api/users") (fresh_context Toy.cold) in
  fst out = inl RetResponse /\
  statusCode (response (exchange (snd out))) = 500 /\
  body (response (exchange (snd out)))
  = Some [("success", VBool false);
          ("error", VStr "Database operation failed");
          ("message", VStr "boom")].
Proof.
  apply (proj1 (withDatabase_spec Toy.readiness Toy.accepting boom
                  (request "/api/users") (fresh_context Toy.cold)) "boom").
  right. exists (Some 7%nat). split; reflexivity.
Defined.

(** ** The model at work *)

Example parseInt_values :
  parseInt (Some "2048") = of_Z 2048 /\
  parseInt (Some "  -42px") = of_Z (-42) /\
  parseInt (Some "0x1F") = of_Z 31 /\
  parseInt (Some "-0") = S754_zero true /\
  parseInt (Some "abc") = NaN /\
  parseInt None = NaN.
Proof. repeat split; vm_compute; reflexivity. Qed.

Example parseFloat_values :
  parseFloat "10" = of_Z 10 /\
  parseFloat "1.5" = S754_finite false 6755399441055744 (-52) /\
  parseFloat "0.1" = S754_finite false 7205759403792794 (-56) /\
  parseFloat "9007199254740993" = of_Z 9007199254740992 /\
  parseFloat "1e400" = Infinity /\
  parseFloat "." = NaN.
Proof. repeat split; vm_compute; reflexivity. Qed.

Example parseSize_values :
  parseSize "1.5 KB" = of_Z 1536 /\
  parseSize "0.1mb" = of_Z 104857 /\
  parseSize "12 gb" = of_Z 12884901888 /\
  parseSize "7" = of_Z 7 /\
  parseSize "1." = of_Z 0 /\
  parseSize ".5mb" = of_Z 0 /\
  parseSize "10 mb " = of_Z 0.
Proof. repeat split; vm_compute; reflexivity. Qed.

Example limiter_without_length :
  requestSizeLimiter None (request "/api/upload") (start fresh)
  = next (start fresh).
Proof. vm_compute. reflexivity. Qed.

Example Promise_all_out_of_order :
  Promise_all [Settles 30 (Fulfilled "a"); Settles 10 (Fulfilled "b");
               Settles 20 (Fulfilled "c")]
  = Settles 30 (Fulfilled ["a"; "b"; "c"]).
Proof. vm_compute. reflexivity. Qed.

Example Promise_all_first_rejection :
  Promise_all [Settles 30 (Fulfilled "a"); Settles 10 (Rejected NoMessage);
               Settles 20 (Rejected (Error "late"))]
  = Settles 10 (Rejected NoMessage).
Proof. vm_compute. reflexivity. Qed.

Example batchProcess_chunks :
  batchProcess 4 ["a"; "b"; "c"; "d"; "e"] (Some 2)
    (resolving (fun s => s ++ "!") (fun s => 5%nat))
  = Some (Settles 15 (Fulfilled ["a!"; "b!"; "c!"; "d!"; "e!"])).
Proof. vm_compute. reflexivity. Qed.

Example Number_toString_values :
  Number_toString 10000 = "10000" /\
  Number_toString (-5) = "-5" /\
  Number_toString (2 ^ 53 + 1) = "9007199254740992" /\
  Number_toString (2 ^ 60) = "1152921504606847000" /\
  Number_toString (2 ^ 64) = "18446744073709552000" /\
  Number_toString (10 ^ 21 - 1) = "1e+21" /\
  Number_toString (2 ^ 70) = "1.1805916207174113e+21" /\
  Number_toString (10 ^ 23) = "1e+23" /\
  Number_toString (- 10 ^ 25) = "-1e+25" /\
  Number_toString (2 ^ 1024 - 2 ^ 970 - 1) = "1.7976931348623157e+308" /\
  Number_toString (2 ^ 1024) = "Infinity".
Proof. vm_compute. repeat split. Qed.

Example withTimeout_large_bound :
  withTimeout true (@Pending nat) (Some (10 ^ 21))
  = Settles 1 (Rejected (Error "Operation timed out after 1e+21ms")).
Proof. vm_compute. reflexivity. Qed.

Example withTimeout_default_bound :
  withTimeout true (@Pending nat) None
  = Settles (Z.to_nat 10000)
      (Rejected (Error "Operation timed out after 10000ms")).
Proof. vm_compute. reflexivity. Qed.

Example first_connect_trace :
  trace Toy.warm
  = [Console Connecting; DriverConnect Toy.uri connectionOptions;
     Console Connected] /\
  listeners Toy.warm = observers /\
  cachedConnection Toy.warm = Some 7%nat.
Proof. repeat split. Qed.

Example second_connect_reuses :
  connectToDatabase Toy.readiness Toy.accepting Toy.warm
  = (inl (Some 7%nat), record (Console UsingCached) Toy.warm).
Proof. reflexivity. Qed.

Example error_event_clears_cache :
  let w := driver_event "error" (Some (Error "ECONNRESET")) 0 Toy.warm in
  cachedConnection w = None /\
  trace w = (trace Toy.warm
             ++ [Console (ConnectionError (Some (Error "ECONNRESET")))])%list.
Proof. split; reflexivity. Qed.

Example reconnected_event_keeps_cache :
  cachedConnection (driver_event "reconnected" None 1 Toy.warm)
  = Some 7%nat.
Proof. reflexivity. Qed.

Example status_after_disconnect :
  getConnectionStatus Toy.readiness (fun _ => Some "localhost")
    (fun _ => Some "app") (driver_event "disconnected" None 0 Toy.warm)
  = {| state := "disconnected"; status_readyState := 0;
       status_host := Some "localhost"; status_name := Some "app" |}.
Proof. reflexivity. Qed.

Example withDatabase_thrown_null :
  fst (withDatabase Toy.readiness Toy.accepting
         (fun req => throw ThrownNull)
         (request "/api/users") (fresh_context Toy.cold))
  = inr (Error "Cannot read properties of null (reading 'message')").
Proof. reflexivity. Qed.

(** * Further properties of the code *)

(** ** Size strings and the request-size limiter *)

Lemma lower_char_capital c :
  (65 <= code c <= 90)%N -> lower_char c = ascii_of_N (code c + 32).
Proof.
  intros H. unfold lower_char.
  destruct (N.leb_spec 65 (code c)), (N.leb_spec (code c) 90);
    simpl; try lia; reflexivity.
Qed.

Lemma lower_char_small c :
  (97 <= code c <= 122)%N -> lower_char c = c.
Proof.
  intros H. unfold lower_char.
  destruct (N.leb_spec 65 (code c)), (N.leb_spec (code c) 90);
    simpl; try lia.
  destruct (N.leb_spec 192 (code c)); simpl; try lia. reflexivity.
Qed.

Lemma same_letter_lower c1 c2 :
  same_letter c1 c2 -> lower_char c1 = lower_char c2.
Proof.
  intros [->|[[H1 H2]|[H1 H2]]]; [reflexivity| |].
  - rewrite (lower_char_capital c1 H1), (lower_char_small c2) by lia.
    rewrite <- H2. apply ascii_N_embedding.
  - rewrite (lower_char_capital c2 H1), (lower_char_small c1) by lia.
    rewrite <- H2. symmetry. apply ascii_N_embedding.
Qed.

Lemma differ_by_case_lower s1 s2 :
  differ_by_case s1 s2 -> toLowerCase s1 = toLowerCase s2.
Proof.
  induction 1 as [|c1 c2 s1 s2 Hc _ IH]; simpl; [reflexivity|].
  now rewrite (same_letter_lower c1 c2 Hc), IH.
Qed.

(** X1. parseSize does not look at the case of the letters A-Z: two
    strings that differ only in that some letters are capitals in the
    one and small in the other give the same number. So [10MB] is
    10485760 as [10mb] is, and [1Kb] is 1024. *)
Theorem parseSize_ignores_case :
  (forall s1 s2, differ_by_case s1 s2 -> parseSize s1 = parseSize s2) /\
  parseSize "10MB" = of_Z 10485760 /\
  parseSize "1Kb" = of_Z 1024.
Proof.
  split; [|split].
  - intros s1 s2 H. unfold parseSize.
    now rewrite (differ_by_case_lower s1 s2 H).
  - vm_compute. reflexivity.
  - vm_compute. reflexivity.
Qed.

Lemma parseSize_ignores_case_witness :
  parseSize "2 Gb" = parseSize "2 gB".
Proof.
  apply (proj1 parseSize_ignores_case "2 Gb" "2 gB").
  repeat (constructor;
          [first [ left; reflexivity
                 | right; left; vm_compute; intuition discriminate
                 | right; right; vm_compute; intuition discriminate ]|]).
  constructor.
Defined.

Lemma leb_zero_not_gt x y :
  not_negative y = true -> SFleb x (of_Z 0) = true -> gt x y = false.
Proof.
  unfold gt, SFltb, SFleb.
  destruct x as [sx|sx| |sx mx ex], y as [sy|sy| |sy my ey]; simpl;
    try reflexivity; try discriminate;
    destruct sx; try discriminate; try reflexivity;
    destruct sy; try discriminate; reflexivity.
Qed.

(** X2. The limiter has two outcomes only, decided by the comparison
    alone: the 413 answer without [next] exactly when the parsed
    content-length is greater than the ceiling, and one call of [next]
    with the response untouched otherwise. A request without a
    content-length header, one whose header does not parse to a number,
    and one whose content-length is zero or negative always pass. *)
Theorem requestSizeLimiter_outcomes
    (maxSize : option string) (req : Request) (x : Exchange) :
  let limit := default default_maxSize maxSize in
  let contentLength := parseInt (headers req !! "content-length") in
  let rejected :=
    {| response :=
         {| statusCode := 413;
            resHeaders := resHeaders (response x);
            body := Some [("success", VBool false);
                          ("error", VStr "Request entity too large");
                          ("maxSize", VStr limit)] |};
       nextCalls := nextCalls x |} in
  (gt contentLength (parseSize limit) = true /\
   requestSizeLimiter maxSize req x = rejected \/
   gt contentLength (parseSize limit) = false /\
   requestSizeLimiter maxSize req x = next x) /\
  (headers req !! "content-length" = None ->
     requestSizeLimiter maxSize req x = next x) /\
  (contentLength = NaN -> requestSizeLimiter maxSize req x = next x) /\
  (SFleb contentLength (of_Z 0) = true ->
     requestSizeLimiter maxSize req x = next x).
Proof.
  intros limit contentLength rejected. unfold requestSizeLimiter.
  fold limit. fold contentLength.
  pose proof (parseSize_not_negative limit) as Hnn.
  split; [|split; [|split]].
  - destruct (gt contentLength (parseSize limit)) eqn:Hgt.
    + left. split; [reflexivity|].
      now rewrite (gt_not_negative_truthy _ _ Hnn Hgt).
    + right. split; [reflexivity|]. now rewrite andb_false_r.
  - intros H. subst contentLength. rewrite H. reflexivity.
  - intros ->. reflexivity.
  - intros H. rewrite (leb_zero_not_gt _ _ Hnn H), andb_false_r.
    reflexivity.
Qed.

Lemma requestSizeLimiter_outcomes_witness :
  requestSizeLimiter (Some "1kb") (request "/api/upload") (start fresh)
  = next (start fresh) /\
  requestSizeLimiter (Some "1kb") (request_with_length "chunked")
    (start fresh) = next (start fresh) /\
  requestSizeLimiter (Some "1kb") (request_with_length "-5") (start fresh)
  = next (start fresh).
Proof.
  split; [|split].
  - apply (proj1 (proj2 (requestSizeLimiter_outcomes (Some "1kb")
                           (request "/api/upload") (start fresh)))).
    reflexivity.
  - apply (proj1 (proj2 (proj2 (requestSizeLimiter_outcomes (Some "1kb")
                           (request_with_length "chunked") (start fresh))))).
    vm_compute. reflexivity.
  - apply (proj2 (proj2 (proj2 (requestSizeLimiter_outcomes (Some "1kb")
                           (request_with_length "-5") (start fresh))))).
    vm_compute. reflexivity.
Defined.

(** X3. A limit that is not a size string gives the ceiling 0: every
    request whose content-length parses to a positive number is then
    answered with 413. *)
Theorem requestSizeLimiter_unreadable_limit
    (limit : string) (req : Request) (x : Exchange) :
  ~ matches_size_syntax (toLowerCase limit) ->
  gt (parseInt (headers req !! "content-length")) (of_Z 0) = true ->
  requestSizeLimiter (Some limit) req x =
  {| response :=
       {| statusCode := 413;
          resHeaders := resHeaders (response x);
          body := Some [("success", VBool false);
                        ("error", VStr "Request entity too large");
                        ("maxSize", VStr limit)] |};
     nextCalls := nextCalls x |}.
Proof.
  intros Hno Hpos. apply size_pattern_none in Hno.
  unfold requestSizeLimiter, parseSize. simpl default. rewrite Hno, Hpos.
  assert (Ht : truthy (parseInt (headers req !! "content-length")) = true).
  { apply (gt_not_negative_truthy _ (of_Z 0)); [reflexivity | exact Hpos]. }
  rewrite Ht. reflexivity.
Qed.

Lemma requestSizeLimiter_unreadable_limit_witness :
  statusCode (response (requestSizeLimiter (Some "10 megabytes")
                          (request_with_length "1") (start fresh))) = 413.
Proof.
  rewrite (requestSizeLimiter_unreadable_limit "10 megabytes"
             (request_with_length "1") (start fresh)).
  - reflexivity.
  - apply size_pattern_none. reflexivity.
  - vm_compute. reflexivity.
Defined.

(** ** The cache-header middleware *)

(** X4. The cache-header middleware touches nothing but the
    Cache-Control header: status and body stay, and so does every
    header whose name is not Cache-Control in any spelling of capitals
    and small letters; a Cache-Control header that was there is kept on
    the paths it does not recognise and replaced on the others; running
    it twice leaves the response as running it once. *)
Theorem setCacheHeaders_frame (req : Request) (x : Exchange) :
  let x' := setCacheHeaders req x in
  statusCode (response x') = statusCode (response x) /\
  body (response x') = body (response x) /\
  (forall field, toLowerCase field <> "cache-control" ->
     resHeaders (response x') !! field = resHeaders (response x) !! field) /\
  (resHeaders (response x') !! "Cache-Control"
   = if matches_static_asset (path req) then Some "public, max-age=3600"
     else if startsWith (path req) "/api/" then Some "public, max-age=300"
     else resHeaders (response x) !! "Cache-Control") /\
  response (setCacheHeaders req x') = response x'.
Proof.
  assert (Hname : forall field,
            toLowerCase field <> "cache-control" ->
            "Cache-Control" <> field).
  { intros field Hf <-. now apply Hf. }
  unfold setCacheHeaders.
  destruct (matches_static_asset (path req));
    [|destruct (startsWith (path req) "/api/")]; simpl;
    (split; [reflexivity|]); (split; [reflexivity|]).
  - split; [|split].
    + intros field Hf. apply lookup_insert_ne. now apply Hname.
    + apply lookup_insert_eq.
    + unfold set. simpl. f_equal. apply insert_insert_eq.
  - split; [|split].
    + intros field Hf. apply lookup_insert_ne. now apply Hname.
    + apply lookup_insert_eq.
    + unfold set. simpl. f_equal. apply insert_insert_eq.
  - repeat split.
Qed.

Lemma setCacheHeaders_frame_witness :
  let x := on_response (set "ETag" "abc") (start fresh) in
  resHeaders (response (setCacheHeaders (request "/api/users") x)) !! "ETag"
  = Some "abc".
Proof.
  intros x.
  rewrite (proj1 (proj2 (proj2
             (setCacheHeaders_frame (request "/api/users") x))))
    by (vm_compute; discriminate).
  reflexivity.
Defined.

(** ** Promise.all on rejections and on inputs that never settle *)

Section PromiseAllMore.

Context {A : Type}.

Local Open Scope list_scope.

Implicit Types (ps : list (Promise A)) (evs pre post : list (Arrival A)).

Lemma earlier_total : Total (@earlier A).
Proof. intros a b. unfold earlier. lia. Qed.

Lemma earlier_transitive : Transitive (@earlier A).
Proof. intros a b c. unfold earlier. lia. Qed.

Lemma completion_order_sorted ps :
  StronglySorted earlier (completion_order ps).
Proof.
  apply (@StronglySorted_merge_sort _ earlier _ earlier_transitive
           earlier_total).
Qed.

Lemma completion_order_perm ps :
  completion_order ps ≡ₚ arrivals_from 0 ps.
Proof. apply merge_sort_Permutation. Qed.

Lemma elem_of_arrivals_from i ps (a : Arrival A) :
  a ∈ arrivals_from i ps <->
  exists j, index a = (i + j)%nat /\
            ps !! j = Some (Settles (at_time a) (outcome a)).
Proof.
  revert i. induction ps as [|p ps IH]; intros i; simpl.
  - split; [intros H; inversion H | intros (j & _ & H); discriminate].
  - rewrite elem_of_app, IH. split.
    + intros [H|(j & Hj & Hp)].
      * destruct p as [|t o]; [inversion H|].
        apply list_elem_of_singleton in H as ->. exists 0%nat.
        split; [simpl; lia | reflexivity].
      * exists (S j). split; [lia | exact Hp].
    + intros ([|j] & Hj & Hp); simpl in Hp.
      * left. injection Hp as ->. apply list_elem_of_singleton.
        destruct a as [t i' o]. simpl in *. f_equal. lia.
      * right. exists j. split; [lia | exact Hp].
Qed.

Lemma arrivals_from_length_le i ps :
  (length (arrivals_from i ps) <= length ps)%nat.
Proof.
  revert i. induction ps as [|p ps IH]; intros i; simpl; [lia|].
  rewrite length_app. specialize (IH (S i)). destruct p; simpl; lia.
Qed.

Lemma arrivals_from_length_lt i ps :
  Pending ∈ ps -> (length (arrivals_from i ps) < length ps)%nat.
Proof.
  revert i. induction ps as [|p ps IH]; intros i H; [inversion H|].
  simpl. rewrite length_app.
  apply elem_of_cons in H as [<-|H].
  - simpl. pose proof (arrivals_from_length_le (S i) ps). lia.
  - specialize (IH (S i) H). destruct p; simpl; lia.
Qed.

(** Fulfilments that are fewer than the inputs awaited leave the whole
    pending. *)
Lemma all_fold_pending pre :
  forall st : AllState A,
    Forall is_fulfilment pre ->
    result st = Pending ->
    (length pre < remaining st)%nat ->
    result (foldl all_step st pre) = Pending /\
    remaining (foldl all_step st pre) = (remaining st - length pre)%nat.
Proof.
  induction pre as [|a pre IH]; intros st Hall Hp Hlen.
  - simpl. split; [exact Hp | lia].
  - apply Forall_cons in Hall as [[v Hv] Hall]. simpl in Hlen.
    simpl foldl.
    assert (Hstep : result (all_step st a) = Pending /\
                    remaining (all_step st a) = (remaining st - 1)%nat).
    { unfold all_step. rewrite Hp, Hv. simpl.
      destruct (Nat.eqb_spec (remaining st - 1) 0); [lia | now split]. }
    destruct Hstep as [Hp' Hr'].
    destruct (IH (all_step st a) Hall Hp') as [H1 H2]; [lia|].
    split; [exact H1 | rewrite H2, Hr'; simpl; lia].
Qed.

Lemma all_fold_settled evs (st : AllState A) t o :
  result st = Settles t o -> foldl all_step st evs = st.
Proof.
  revert st. induction evs as [|a evs IH]; intros st H; [reflexivity|].
  simpl. assert (Hs : all_step st a = st) by (unfold all_step; now rewrite H).
  rewrite Hs. now apply IH.
Qed.

Lemma all_fold_rejected pre a post r n :
  Forall is_fulfilment pre ->
  outcome a = Rejected r ->
  (length (pre ++ a :: post) <= n)%nat ->
  result (foldl all_step (all_init n) (pre ++ a :: post))
  = Settles (at_time a) (Rejected r).
Proof.
  intros Hpre Ha Hlen. rewrite length_app in Hlen. simpl in Hlen.
  rewrite foldl_app. simpl foldl.
  destruct (all_fold_pending pre (all_init n) Hpre eq_refl) as [Hp _];
    [simpl; lia|].
  set (st := foldl all_step (all_init n) pre) in *.
  assert (Hs : result (all_step st a) = Settles (at_time a) (Rejected r)).
  { unfold all_step. now rewrite Hp, Ha. }
  now rewrite (all_fold_settled post _ _ _ Hs).
Qed.

Lemma first_rejection evs :
  ~ Forall is_fulfilment evs ->
  exists pre a post r,
    evs = pre ++ a :: post /\ Forall is_fulfilment pre /\
    outcome a = Rejected r.
Proof.
  induction evs as [|a evs IH]; intros H.
  - destruct H. constructor.
  - destruct (outcome a) as [v|r] eqn:Ha.
    + destruct IH as (pre & b & post & r & -> & Hpre & Hb).
      { intros Hall. apply H. constructor; [now exists v | exact Hall]. }
      exists (a :: pre), b, post, r. repeat split; [|exact Hb].
      constructor; [now exists v | exact Hpre].
    + exists [], a, evs, r. repeat split; [constructor | exact Ha].
Qed.

(** When an input rejects, Promise.all rejects with the reason of a
    rejection that no other rejection precedes. *)
Lemma Promise_all_rejected ps :
  (exists i t r, ps !! i = Some (Settles t (Rejected r))) ->
  exists i t r,
    ps !! i = Some (Settles t (Rejected r)) /\
    Promise_all ps = Settles t (Rejected r) /\
    forall j t' r',
      ps !! j = Some (Settles t' (Rejected r')) -> (t <= t')%nat.
Proof.
  intros (i0 & t0 & r0 & H0).
  assert (Hne : ps <> []) by (intros ->; discriminate).
  rewrite (Promise_all_nonempty ps Hne).
  pose proof (completion_order_perm ps) as Hperm.
  pose proof (completion_order_sorted ps) as Hsorted.
  assert (Hin : forall a, a ∈ completion_order ps <->
                  ps !! index a = Some (Settles (at_time a) (outcome a))).
  { intros a. rewrite Hperm, elem_of_arrivals_from. split.
    - intros (j & Hj & Hp). simpl in Hj. now subst j.
    - intros Hp. now exists (index a). }
  destruct (first_rejection (completion_order ps))
    as (pre & a & post & r & Hsplit & Hpre & Ha).
  { intros Hall. rewrite Forall_forall in Hall.
    destruct (Hall {| at_time := t0; index := i0; outcome := Rejected r0 |})
      as [v Hv]; [|discriminate].
    apply Hin. exact H0. }
  exists (index a), (at_time a), r. split; [|split].
  - rewrite <- Ha. apply Hin. rewrite Hsplit.
    apply elem_of_app. right. left.
  - rewrite Hsplit. apply all_fold_rejected; [exact Hpre | exact Ha |].
    rewrite <- Hsplit, Hperm. apply arrivals_from_length_le.
  - intros j t' r' Hj.
    set (b := {| at_time := t'; index := j;
                 outcome := @Rejected A r' |}).
    assert (Hb : b ∈ completion_order ps) by (apply Hin; exact Hj).
    rewrite Hsplit in Hb, Hsorted.
    apply StronglySorted_app in Hsorted as (_ & _ & Htail).
    apply elem_of_app in Hb as [Hb|Hb].
    + rewrite Forall_forall in Hpre.
      destruct (Hpre b Hb) as [v Hv]. discriminate.
    + apply elem_of_cons in Hb as [Hb|Hb]; [rewrite <- Hb; simpl; lia|].
      apply StronglySorted_inv in Htail as [_ Htail].
      rewrite Forall_forall in Htail.
      apply (Htail b Hb).
Qed.

(** When no input rejects and one never settles, Promise.all never
    settles. *)
Lemma Promise_all_pending ps :
  Pending ∈ ps ->
  (forall p r, p ∈ ps -> ~ rejects p r) ->
  Promise_all ps = Pending.
Proof.
  intros Hpend Hnone.
  assert (Hne : ps <> []) by (intros ->; inversion Hpend).
  rewrite (Promise_all_nonempty ps Hne).
  pose proof (completion_order_perm ps) as Hperm.
  apply all_fold_pending; [|reflexivity|].
  - apply Forall_forall. intros a Ha. rewrite Hperm in Ha.
    apply elem_of_arrivals_from in Ha as (j & _ & Hj).
    destruct (outcome a) as [v|r] eqn:Ho; [now exists v|].
    exfalso. apply (Hnone (Settles (at_time a) (Rejected r)) r).
    + eapply list_elem_of_lookup_2, Hj.
    + now exists (at_time a).
  - simpl. rewrite Hperm. now apply arrivals_from_length_lt.
Qed.

End PromiseAllMore.

(** ** The batch processor on rejections and on items that never settle *)

Section BatchMore.

Context {A B : Type}.

Local Open Scope list_scope.

Implicit Types (items batch : list A) (processor : A -> Promise B).

Lemma lookup_map {X Y} (g : X -> Y) (l : list X) i :
  map g l !! i = g <$> l !! i.
Proof.
  revert i. induction l as [|x l IH]; intros [|i]; simpl; auto.
Qed.

Lemma elem_of_take_le (l : list A) n m x :
  (n <= m)%nat -> x ∈ take n l -> x ∈ take m l.
Proof.
  intros Hle Hx. replace n with (n `min` m)%nat in Hx by lia.
  rewrite <- take_take in Hx. eapply subseteq_take, Hx.
Qed.

Lemma slice_in_take items (i b : Z) x :
  0 <= i -> 0 <= b ->
  x ∈ slice items i (i + b) -> x ∈ take (Z.to_nat (i + b)) items.
Proof.
  intros Hi Hb Hx. rewrite <- (take_app_slice items i b Hi Hb).
  apply elem_of_app. now right.
Qed.

Lemma slice_nonempty_lt items (i j : Z) x :
  0 <= i -> x ∈ slice items i j -> i < Z.of_nat (length items).
Proof.
  intros Hi Hx. destruct (Z.lt_ge_cases i (Z.of_nat (length items)))
    as [Hlt|Hge]; [exact Hlt | exfalso].
  unfold slice in Hx. destruct (Z.ltb_spec i 0) as [?|_]; [lia|].
  rewrite (Z.min_r i), Nat2Z.id, drop_all, take_nil in Hx by lia.
  inversion Hx.
Qed.

(** One round of the loop on a chunk whose items all fulfil. *)
Lemma batchLoop_chunk_fulfilled items (b : Z) processor (f : A -> B)
    fuel (i : Z) now results :
  i < Z.of_nat (length items) ->
  (forall x, x ∈ slice items i (i + b) -> fulfils (processor x) (f x)) ->
  exists t,
    batchLoop (S fuel) items b processor i now results
    = batchLoop fuel items b processor (i + b) (now + t)
        (results ++ map f (slice items i (i + b))).
Proof.
  intros Hlt Hproc. cbn [batchLoop].
  destruct (Z.ltb_spec i (Z.of_nat (length items))) as [_|?]; [|lia].
  destruct (Promise_all_fulfilled
              (map processor (slice items i (i + b)))
              (map f (slice items i (i + b)))) as [t ->].
  { apply Forall2_fulfils_map. exact Hproc. }
  now exists t.
Qed.

(** The first [k] chunks, when their items all fulfil. *)
Lemma batchLoop_prefix items (b : Z) processor (f : A -> B) (k : nat) :
  1 <= b ->
  Z.of_nat k * b <= Z.of_nat (length items) ->
  (forall x, x ∈ take (Z.to_nat (Z.of_nat k * b)) items ->
     fulfils (processor x) (f x)) ->
  forall fuel,
    exists t,
      batchLoop (k + fuel) items b processor 0 0 []
      = batchLoop fuel items b processor (Z.of_nat k * b) t
          (map f (take (Z.to_nat (Z.of_nat k * b)) items)).
Proof.
  intros Hb. induction k as [|k IH]; intros Hlen Hproc fuel.
  - exists 0%nat. reflexivity.
  - assert (Hk : Z.of_nat (S k) * b = Z.of_nat k * b + b) by lia.
    rewrite Hk in *.
    assert (Hpos : 0 <= Z.of_nat k * b) by nia.
    destruct (IH ltac:(lia)) with (fuel := S fuel) as [t Ht].
    { intros x Hx. apply Hproc. revert Hx. apply elem_of_take_le. lia. }
    replace (S k + fuel)%nat with (k + S fuel)%nat by lia. rewrite Ht.
    destruct (batchLoop_chunk_fulfilled items b processor f fuel
                (Z.of_nat k * b) t
                (map f (take (Z.to_nat (Z.of_nat k * b)) items)))
      as [t' ->]; [lia| |].
    { intros x Hx. apply Hproc. apply slice_in_take; [lia | lia | exact Hx]. }
    exists (t + t')%nat. rewrite <- map_app, take_app_slice by lia.
    reflexivity.
Qed.

(** Up to a chunk that does not fulfil, the loop reads the processor on
    the items of that chunk and of the chunks before it only. *)
Lemma batchLoop_agree items (b : Z) processor processor' (k : nat) :
  1 <= b ->
  (forall t vs,
     Promise_all (map processor (slice items (Z.of_nat k * b)
                                   (Z.of_nat k * b + b)))
     <> Settles t (Fulfilled vs)) ->
  (forall y, y ∈ take (Z.to_nat (Z.of_nat k * b + b)) items ->
     processor' y = processor y) ->
  forall fuel (j : nat) now results,
    (j <= k)%nat ->
    batchLoop fuel items b processor' (Z.of_nat j * b) now results
    = batchLoop fuel items b processor (Z.of_nat j * b) now results.
Proof.
  intros Hb Hfail Hagree.
  induction fuel as [|fuel IH]; intros j now results Hj; [reflexivity|].
  cbn [batchLoop].
  destruct (Z.ltb_spec (Z.of_nat j * b) (Z.of_nat (length items)));
    [|reflexivity].
  assert (Hmap : map processor' (slice items (Z.of_nat j * b)
                                   (Z.of_nat j * b + b))
                 = map processor (slice items (Z.of_nat j * b)
                                    (Z.of_nat j * b + b))).
  { apply map_ext_in. intros y Hy. apply Hagree.
    apply list_elem_of_In in Hy.
    apply (elem_of_take_le _ (Z.to_nat (Z.of_nat j * b + b))); [nia|].
    apply slice_in_take; [nia | lia | exact Hy]. }
  rewrite Hmap.
  destruct (Promise_all (map processor (slice items (Z.of_nat j * b)
                                          (Z.of_nat j * b + b))))
    as [|t [vs|r]] eqn:Hall; try reflexivity.
  destruct (decide (j = k)) as [->|Hne].
  - now destruct (Hfail t vs).
  - replace (Z.of_nat j * b + b) with (Z.of_nat (S j) * b) by lia.
    apply IH. lia.
Qed.

End BatchMore.

(** X5. batchProcess fails fast. When the items of the first [k] chunks
    all fulfil and an item of the next chunk rejects, batchProcess
    rejects with the reason of a rejection of that chunk that no other
    rejection of the chunk precedes; what the processor would do on the
    items of later chunks has no influence on the result, since they are
    never processed. *)
Theorem batchProcess_fails_fast (A B : Type) (items : list A)
    (batchSize : Z) (processor : A -> Promise B) (f : A -> B) (k : nat) :
  let i := Z.of_nat k * batchSize in
  let chunk := slice items i (i + batchSize) in
  1 <= batchSize ->
  (forall x, x ∈ take (Z.to_nat i) items -> fulfils (processor x) (f x)) ->
  (exists x r, x ∈ chunk /\ rejects (processor x) r) ->
  forall fuel, (k < fuel)%nat ->
    exists x t r T,
      x ∈ chunk /\ processor x = Settles t (Rejected r) /\
      (forall y t' r', y ∈ chunk ->
         processor y = Settles t' (Rejected r') -> (t <= t')%nat) /\
      batchProcess fuel items (Some batchSize) processor
      = Some (Settles T (Rejected r)) /\
      forall processor' : A -> Promise B,
        (forall y, y ∈ take (Z.to_nat (i + batchSize)) items ->
           processor' y = processor y) ->
        batchProcess fuel items (Some batchSize) processor'
        = batchProcess fuel items (Some batchSize) processor.
Proof.
  intros i chunk Hb Hpre (x0 & r0 & Hx0 & t0 & Hr0) fuel Hfuel.
  assert (Hi : 0 <= i) by (subst i; nia).
  assert (Hlt : i < Z.of_nat (length items)).
  { eapply slice_nonempty_lt; [exact Hi | exact Hx0]. }
  destruct (Promise_all_rejected (map processor chunk))
    as (n & t & r & Hn & Hall & Hmin).
  { apply list_elem_of_lookup in Hx0 as [n Hn]. exists n, t0, r0.
    now rewrite lookup_map, Hn, <- Hr0. }
  rewrite lookup_map in Hn. apply fmap_Some in Hn as (x & Hx & Hpx).
  exists x, t, r.
  destruct (batchLoop_prefix items batchSize processor f k Hb
              ltac:(fold i; lia) Hpre (fuel - k)%nat) as [T HT].
  replace (k + (fuel - k))%nat with fuel in HT by lia.
  destruct (fuel - k)%nat as [|fuel'] eqn:Hf; [lia|].
  exists (T + t)%nat. split; [|split; [|split; [|split]]].
  - eapply list_elem_of_lookup_2, Hx.
  - now symmetry.
  - intros y t' r' Hy Hpy. apply list_elem_of_lookup in Hy as [m Hm].
    apply (Hmin m t' r'). now rewrite lookup_map, Hm, <- Hpy.
  - unfold batchProcess. simpl default. rewrite HT. cbn [batchLoop].
    fold i. destruct (Z.ltb_spec i (Z.of_nat (length items))); [|lia].
    fold chunk. now rewrite Hall.
  - intros processor' Hagree. unfold batchProcess. simpl default.
    apply (batchLoop_agree items batchSize processor processor' k Hb)
      with (j := 0%nat); [| exact Hagree | lia].
    fold i. fold chunk. rewrite Hall. discriminate.
Qed.

Lemma batchProcess_fails_fast_witness :
  batchProcess 3 ["a"; "b"; "c"; "d"; "e"; "f"]%string (Some 2)
    (fun s => if String.eqb s "c" then Settles 9 (Rejected (Error s))
              else if String.eqb s "d" then Settles 4 (Rejected (Error s))
              else if String.eqb s "e" then Pending
              else Settles 1 (Fulfilled s))
  = Some (Settles 5 (Rejected (Error "d"))) /\
  exists T r,
    batchProcess 3 ["a"; "b"; "c"; "d"; "e"; "f"]%string (Some 2)
      (fun s => if String.eqb s "c" then Settles 9 (Rejected (Error s))
                else if String.eqb s "d" then Settles 4 (Rejected (Error s))
                else if String.eqb s "e" then Pending
                else Settles 1 (Fulfilled s))
    = Some (Settles T (Rejected r)).
Proof.
  split; [vm_compute; reflexivity|].
  destruct (batchProcess_fails_fast string string
              ["a"; "b"; "c"; "d"; "e"; "f"]%string 2
              (fun s => if String.eqb s "c" then Settles 9 (Rejected (Error s))
                        else if String.eqb s "d"
                             then Settles 4 (Rejected (Error s))
                        else if String.eqb s "e" then Pending
                        else Settles 1 (Fulfilled s))
              (fun s => s) 1) with (fuel := 3%nat)
    as (x & t & r & T & _ & _ & _ & H & _).
  - lia.
  - intros x Hx. simpl in Hx.
    apply elem_of_cons in Hx as [->|Hx]; [now exists 1%nat|].
    apply list_elem_of_singleton in Hx as ->. now exists 1%nat.
  - exists "c"%string, (Error "c"). split; [left | now exists 9%nat].
  - lia.
  - now exists T, r.
Defined.

(** X6. batchProcess has no bound on the wait. When the items of the
    first [k] chunks all fulfil and the next chunk holds an item that
    never settles and none that rejects, batchProcess never settles:
    the chunks after it are never started. *)
Theorem batchProcess_hangs (A B : Type) (items : list A)
    (batchSize : Z) (processor : A -> Promise B) (f : A -> B) (k : nat) :
  let i := Z.of_nat k * batchSize in
  let chunk := slice items i (i + batchSize) in
  1 <= batchSize ->
  (forall x, x ∈ take (Z.to_nat i) items -> fulfils (processor x) (f x)) ->
  (exists x, x ∈ chunk /\ processor x = Pending) ->
  (forall y r, y ∈ chunk -> ~ rejects (processor y) r) ->
  forall fuel, (k < fuel)%nat ->
    batchProcess fuel items (Some batchSize) processor = Some Pending /\
    forall processor' : A -> Promise B,
      (forall y, y ∈ take (Z.to_nat (i + batchSize)) items ->
         processor' y = processor y) ->
      batchProcess fuel items (Some batchSize) processor' = Some Pending.
Proof.
  intros i chunk Hb Hpre (x0 & Hx0 & Hp0) Hnone fuel Hfuel.
  assert (Hi : 0 <= i) by (subst i; nia).
  assert (Hlt : i < Z.of_nat (length items)).
  { eapply slice_nonempty_lt; [exact Hi | exact Hx0]. }
  assert (Hall : Promise_all (map processor chunk) = Pending).
  { apply Promise_all_pending.
    - rewrite <- Hp0. apply list_elem_of_In, in_map, list_elem_of_In, Hx0.
    - intros p r Hp. apply list_elem_of_In, in_map_iff in Hp as (y & <- & Hy).
      apply Hnone. now apply list_elem_of_In. }
  assert (Hres : batchProcess fuel items (Some batchSize) processor
                 = Some Pending).
  { destruct (batchLoop_prefix items batchSize processor f k Hb
                ltac:(fold i; lia) Hpre (fuel - k)%nat) as [T HT].
    replace (k + (fuel - k))%nat with fuel in HT by lia.
    destruct (fuel - k)%nat as [|fuel'] eqn:Hf; [lia|].
    unfold batchProcess. simpl default. rewrite HT. cbn [batchLoop].
    fold i. destruct (Z.ltb_spec i (Z.of_nat (length items))); [|lia].
    fold chunk. now rewrite Hall. }
  split; [exact Hres|].
  intros processor' Hagree. rewrite <- Hres.
  unfold batchProcess. simpl default.
  apply (batchLoop_agree items batchSize processor processor' k Hb)
    with (j := 0%nat); [| exact Hagree | lia].
  fold i. fold chunk. rewrite Hall. discriminate.
Qed.

Lemma batchProcess_hangs_witness :
  batchProcess 2 ["a"; "b"; "c"]%string (Some 2)
    (fun s => if String.eqb s "b" then Pending else Settles 1 (Fulfilled s))
  = Some Pending.
Proof.
  destruct (batchProcess_hangs string string ["a"; "b"; "c"]%string 2
              (fun s => if String.eqb s "b" then Pending
                        else Settles 1 (Fulfilled s))
              (fun s => s) 0) with (fuel := 2%nat) as [H _].
  - lia.
  - intros x Hx. inversion Hx.
  - exists "b"%string. split; [right; left | reflexivity].
  - intros y r Hy [t Ht]. simpl in Hy.
    apply elem_of_cons in Hy as [->|Hy]; [discriminate|].
    apply list_elem_of_singleton in Hy as ->. discriminate.
  - lia.
  - exact H.
Defined.

(** ** The time the batch processor takes *)

Section PromiseAllTime.

Context {A : Type}.

Local Open Scope list_scope.

Lemma max_list_unique (l : list nat) m :
  m ∈ l -> (forall x, x ∈ l -> (x <= m)%nat) -> max_list l = m.
Proof.
  intros Hm Hle. apply Nat.le_antisymm.
  - apply Hle, max_list_elem_of. intros ->. inversion Hm.
  - now apply max_list_elem_of_le.
Qed.

Lemma arrivals_from_times i (ps : list (Promise A)) (ts : list nat) :
  Forall2 (fun p t => exists v, p = Settles t (Fulfilled v)) ps ts ->
  at_time <$> arrivals_from i ps = ts.
Proof.
  intros H. revert i. induction H as [|p t ps ts [v ->] _ IH]; intros i;
    [reflexivity|].
  simpl. f_equal. apply IH.
Qed.

(** When every input fulfils, Promise.all fulfils when the last one
    does. *)
Lemma Promise_all_fulfilled_time (ps : list (Promise A)) (ts : list nat)
    (vs : list A) :
  Forall2 (fun p t => exists v, p = Settles t (Fulfilled v)) ps ts ->
  Forall2 fulfils ps vs ->
  Promise_all ps = Settles (max_list ts) (Fulfilled vs).
Proof.
  intros Hts Hvs. destruct (Promise_all_fulfilled ps vs Hvs) as [t Ht].
  rewrite Ht. f_equal.
  destruct (decide (ps = [])) as [->|Hne].
  { apply Forall2_nil_inv_l in Hts as ->. now injection Ht as <-. }
  rewrite (Promise_all_nonempty ps Hne) in Ht.
  pose proof (completion_order_perm ps) as Hperm.
  pose proof (completion_order_sorted ps) as Hsorted.
  pose proof (arrivals_from_times 0 ps ts Hts) as Htimes.
  assert (Hful : Forall is_fulfilment (completion_order ps)).
  { rewrite Hperm. destruct (arrivals_from_fulfilled 0 ps vs Hvs) as [_ H].
    eapply Forall_impl; [exact H|]. intros a (_ & v & Hv & _). now exists v. }
  assert (Hlen : length (completion_order ps) = length ps).
  { rewrite Hperm, <- (length_fmap at_time), Htimes.
    symmetry. eapply Forall2_length, Hts. }
  assert (Hnil : completion_order ps <> []).
  { intros H. rewrite H in Hlen. destruct ps; [congruence | discriminate]. }
  destruct (exists_last Hnil) as (evs & a & Hev).
  rewrite Hev in *. clear Hnil.
  apply Forall_app in Hful as [Hpre Ha].
  rewrite length_app in Hlen. simpl in Hlen.
  rewrite foldl_app in Ht. simpl in Ht.
  destruct (all_fold_pending evs (all_init (length ps)) Hpre eq_refl)
    as [Hp Hr]; [simpl; lia|].
  set (st := foldl all_step (all_init (length ps)) evs) in *.
  unfold all_step in Ht. rewrite Hp in Ht.
  apply Forall_singleton in Ha as [v Hv]. rewrite Hv, Hr in Ht.
  simpl in Ht.
  destruct (Nat.eqb_spec (length ps - length evs - 1) 0); [|discriminate].
  injection Ht as <- _. symmetry. apply max_list_unique.
  - rewrite <- Htimes, <- Hperm. apply list_elem_of_fmap.
    exists a. split; [reflexivity|]. apply elem_of_app. right. left.
  - intros x Hx. rewrite <- Htimes, <- Hperm in Hx.
    apply list_elem_of_fmap in Hx as (b & -> & Hb).
    apply StronglySorted_app in Hsorted as (Hcross & _ & _).
    apply elem_of_app in Hb as [Hb|Hb].
    + apply (Hcross b a Hb). left.
    + apply list_elem_of_singleton in Hb as ->. lia.
Qed.

End PromiseAllTime.

Section BatchLatency.

Context {A B : Type}.

Local Open Scope list_scope.

Lemma chunk_latency_enough (b : nat) :
  (1 <= b)%nat ->
  forall fuel1 fuel2 (ds : list nat),
    (length ds <= fuel1)%nat -> (length ds <= fuel2)%nat ->
    chunk_latency fuel1 b ds = chunk_latency fuel2 b ds.
Proof.
  intros Hb. induction fuel1 as [|f1 IH]; intros fuel2 ds H1 H2.
  - destruct ds; [|simpl in H1; lia]. now destruct fuel2.
  - destruct ds as [|d ds]; [now destruct fuel2|].
    destruct fuel2 as [|f2]; [simpl in H2; lia|].
    cbn [chunk_latency]. f_equal.
    apply IH; rewrite length_drop; simpl in *; lia.
Qed.

Lemma latency_unfold (b : nat) (ds : list nat) :
  (1 <= b)%nat -> ds <> [] ->
  latency b ds = (max_list (take b ds) + latency b (drop b ds))%nat.
Proof.
  intros Hb Hne. unfold latency. destruct ds as [|d ds]; [congruence|].
  cbn [length chunk_latency]. f_equal.
  apply chunk_latency_enough; [exact Hb | |reflexivity].
  rewrite length_drop. simpl. lia.
Qed.

Lemma slice_take_drop (items : list A) (i b : Z) :
  0 <= i -> 0 <= b ->
  slice items i (i + b) = take (Z.to_nat b) (drop (Z.to_nat i) items).
Proof.
  intros Hi Hb. unfold slice.
  destruct (Z.ltb_spec i 0) as [?|_]; [lia|].
  destruct (Z.ltb_spec (i + b) 0) as [?|_]; [lia|].
  destruct (Z.le_gt_cases i (Z.of_nat (length items))) as [Hle|Hgt].
  - rewrite (Z.min_l i) by lia.
    destruct (Z.le_gt_cases (i + b) (Z.of_nat (length items))) as [Hle'|Hgt'].
    + rewrite Z.min_l by lia. f_equal. lia.
    + rewrite Z.min_r by lia. rewrite !take_ge; [reflexivity| |];
        rewrite length_drop; lia.
  - rewrite (Z.min_r i) by lia. rewrite Nat2Z.id, drop_all.
    rewrite drop_ge by lia. now rewrite !take_nil.
Qed.

Lemma batchLoop_latency (items : list A) (b : Z) (f : A -> B)
    (delay : A -> nat) :
  1 <= b ->
  forall fuel i now results,
    0 <= i -> (length items - Z.to_nat i < fuel)%nat ->
    batchLoop fuel items b (resolving f delay) i now results
    = Some (Settles
              (now + latency (Z.to_nat b)
                       (map delay (drop (Z.to_nat i) items)))
              (Fulfilled (results ++ map f (drop (Z.to_nat i) items)))).
Proof.
  intros Hb. induction fuel as [|fuel IH]; intros i now results Hi Hfuel;
    [lia|].
  cbn [batchLoop].
  destruct (Z.ltb_spec i (Z.of_nat (length items))) as [Hlt|Hge].
  - rewrite (slice_take_drop items i b) by lia.
    set (rest := drop (Z.to_nat i) items).
    assert (Hne : map delay rest <> []).
    { subst rest. intros H. apply (f_equal length) in H.
      rewrite length_map, length_drop in H. simpl in H. lia. }
    rewrite (Promise_all_fulfilled_time
               (map (resolving f delay) (take (Z.to_nat b) rest))
               (map delay (take (Z.to_nat b) rest))
               (map f (take (Z.to_nat b) rest))).
    + rewrite IH by lia.
      rewrite (latency_unfold (Z.to_nat b) (map delay rest))
        by (lia || exact Hne).
      replace (drop (Z.to_nat (i + b)) items) with (drop (Z.to_nat b) rest)
        by (subst rest; rewrite drop_drop; f_equal; lia).
      rewrite firstn_map, skipn_map, <- app_assoc, <- map_app, take_drop.
      do 2 f_equal. lia.
    + induction (take (Z.to_nat b) rest) as [|x l IHl]; simpl; constructor;
        [now exists (f x) | exact IHl].
    + apply Forall2_fulfils_map. intros x _. now exists (delay x).
  - rewrite drop_ge by lia. simpl. unfold latency. simpl.
    now rewrite Nat.add_0_r, app_nil_r.
Qed.

End BatchLatency.

Lemma latency_one (ds : list nat) : latency 1 ds = sum_list ds.
Proof.
  induction ds as [|d ds IH]; [reflexivity|].
  rewrite latency_unfold by (lia || discriminate).
  simpl take. simpl drop. unfold drop. rewrite IH. simpl. lia.
Qed.

Lemma latency_one_chunk (b : nat) (ds : list nat) :
  (1 <= b)%nat -> (length ds <= b)%nat -> latency b ds = max_list ds.
Proof.
  intros Hb Hlen. destruct ds as [|d ds]; [reflexivity|].
  rewrite latency_unfold by (lia || discriminate).
  rewrite take_ge, drop_ge by lia. unfold latency. simpl. lia.
Qed.

(** X7. The time batchProcess takes. With a chunk size of at least 1
    and a processor that fulfils [f x] after [delay x] milliseconds,
    batchProcess fulfils with the mapped items after the sum, over the
    chunks, of the longest delay in the chunk: chunks run one after
    another, the items of a chunk together. With a chunk size of 1 that
    is the sum of all delays, with a chunk size that covers the whole
    list the longest delay. *)
Theorem batchProcess_latency (A B : Type) (items : list A) (batchSize : Z)
    (f : A -> B) (delay : A -> nat) :
  1 <= batchSize ->
  forall fuel, (length items < fuel)%nat ->
    batchProcess fuel items (Some batchSize) (resolving f delay)
    = Some (Settles (latency (Z.to_nat batchSize) (map delay items))
              (Fulfilled (map f items))) /\
    (batchSize = 1 ->
       latency (Z.to_nat batchSize) (map delay items)
       = sum_list (map delay items)) /\
    (Z.of_nat (length items) <= batchSize ->
       latency (Z.to_nat batchSize) (map delay items)
       = max_list (map delay items)).
Proof.
  intros Hb fuel Hfuel. split; [|split].
  - unfold batchProcess. simpl default.
    rewrite (batchLoop_latency items batchSize f delay Hb) by (simpl; lia).
    reflexivity.
  - intros ->. apply latency_one.
  - intros Hlen. apply latency_one_chunk; [lia|]. rewrite length_map. lia.
Qed.

Lemma batchProcess_latency_witness :
  batchProcess 6 [30; 10; 20; 5; 40]%nat (Some 2) (resolving S id)
  = Some (Settles 90 (Fulfilled [31; 11; 21; 6; 41]%nat)).
Proof.
  rewrite (proj1 (batchProcess_latency nat nat [30; 10; 20; 5; 40]%nat 2
                    S id ltac:(lia) 6%nat ltac:(simpl; lia))).
  reflexivity.
Defined.

(** ** The timeout wrapper, whatever the operation does *)

(** X8. withTimeout never waits longer than its timer: whatever the
    operation does, even if it never settles, the result settles no
    later than the timer fires. An operation that settles before the
    timer fires passes unchanged, a rejection as well as a value. *)
Theorem withTimeout_bounded (A : Type) (tie : bool) (operation : Promise A)
    (timeoutMs : Z) :
  (exists t o,
     withTimeout tie operation (Some timeoutMs) = Settles t o /\
     (t <= timer_delay timeoutMs)%nat) /\
  (forall t o,
     operation = Settles t o -> (t < timer_delay timeoutMs)%nat ->
     withTimeout tie operation (Some timeoutMs) = operation).
Proof.
  unfold withTimeout. simpl default. split.
  - destruct operation as [|t o]; simpl; [eauto|].
    destruct (Nat.ltb_spec t (timer_delay timeoutMs)).
    + exists t, o. split; [reflexivity | lia].
    + destruct (Nat.ltb_spec (timer_delay timeoutMs) t); [eauto|].
      destruct tie; [|eauto]. exists t, o. split; [reflexivity | lia].
  - intros t o -> Hlt. simpl.
    destruct (Nat.ltb_spec t (timer_delay timeoutMs)); [reflexivity | lia].
Qed.

Lemma withTimeout_bounded_witness :
  withTimeout true (Settles 3 (@Rejected nat (Error "ENOENT"))) (Some 250)
  = Settles 3 (Rejected (Error "ENOENT")).
Proof.
  apply (proj2 (withTimeout_bounded nat true
                  (Settles 3 (Rejected (Error "ENOENT"))) 250) 3%nat
           (Rejected (Error "ENOENT")));
    [reflexivity | vm_compute; lia].
Defined.

(** ** The connection cache over its life *)

Section CacheLife.

Context {Handle DriverState : Type}.
Variable readyState : DriverState -> Z.
Variable host name : DriverState -> option string.
Variable mongoose_connect :
  option string -> ConnectionOptions -> DriverState ->
  (Handle + Thrown) * DriverState.
Variable connection_close : DriverState -> (unit + Thrown) * DriverState.

Local Open Scope list_scope.

Abbreviation W := (World Handle DriverState).
Abbreviation connect := (connectToDatabase readyState mongoose_connect).
Abbreviation close := (closeConnection connection_close).
Abbreviation reuse := (reuses readyState).
Abbreviation reach :=
  (reachable readyState mongoose_connect connection_close).

Ltac count_lines :=
  simpl; unfold established, connect_calls, close_calls;
  rewrite ?List.filter_app, ?length_app; simpl; lia.

(** X9. The cache works: after a connect that established a connection
    and left the driver ready, the next connect returns the same handle
    without asking the driver and without registering observers. *)
Theorem connectToDatabase_twice (w : W) (h : Handle) (d : DriverState) :
  reuse w = false ->
  mongoose_connect (MONGODB_URI w) connectionOptions (driver w) = (inl h, d) ->
  readyState d = 1 ->
  let w1 := snd (connect w) in
  fst (connect w1) = inl (Some h) /\
  connect_calls (trace (snd (connect w1))) = connect_calls (trace w1) /\
  listeners (snd (connect w1)) = listeners w1 /\
  cachedConnection (snd (connect w1)) = Some h /\
  driver (snd (connect w1)) = d.
Proof using Type.
  intros Hr Hc Hd w1. subst w1.
  rewrite (connect_established readyState mongoose_connect w h d Hr Hc).
  simpl snd. rewrite connect_reuse.
  - simpl. repeat split. count_lines.
  - unfold reuses. simpl. now rewrite Hd.
Qed.

Lemma concat_replicate_snoc {X} (l : list X) k :
  concat (replicate (S k) l) = concat (replicate k l) ++ l.
Proof.
  induction k as [|k IH]; simpl in *; [now rewrite app_nil_r|].
  rewrite <- app_assoc. f_equal. exact IH.
Qed.

Lemma length_concat_replicate {X} (l : list X) k :
  length (concat (replicate k l)) = (k * length l)%nat.
Proof.
  induction k as [|k IH]; [reflexivity|].
  cbn [replicate concat]. rewrite length_app, IH. lia.
Qed.

Lemma emit_fold_established nm arg (l : list (string * Observer)) (w : W) :
  established
    (trace (foldl (fun w '(n, o) =>
                     if String.eqb n nm then observe o arg w else w) w l))
  = established (trace w).
Proof.
  revert w. induction l as [|[n o] l IH]; intros w; [reflexivity|].
  simpl. rewrite IH. destruct (String.eqb n nm); [|reflexivity].
  destruct o; count_lines.
Qed.

Lemma reachable_listeners (w : W) :
  reach w ->
  listeners w = concat (replicate (established (trace w)) observers).
Proof using Type.
  intros Hw. induction Hw as [d uri|w _ IH|w _ IH|nm arg d w _ IH].
  - reflexivity.
  - destruct (reuses readyState w) eqn:Hr.
    + rewrite (connect_reuse readyState mongoose_connect w Hr). simpl.
      rewrite IH. f_equal. f_equal. count_lines.
    + destruct (mongoose_connect (MONGODB_URI w) connectionOptions
                  (driver w)) as [[h|e] d] eqn:Hc.
      * rewrite (connect_established readyState mongoose_connect
                   w h d Hr Hc). simpl.
        replace (established _) with (S (established (trace w)))
          by count_lines.
        rewrite concat_replicate_snoc, <- IH, <- !app_assoc. reflexivity.
      * rewrite (connect_failed readyState mongoose_connect w e d Hr Hc).
        simpl. rewrite IH. f_equal. f_equal. count_lines.
  - destruct (close_cases connection_close w)
      as [[_ ->]|[(c & d & _ & _ & ->)|(c & e & d & _ & _ & ->)]];
      simpl; [exact IH | |]; rewrite IH; f_equal; f_equal; count_lines.
  - unfold driver_event, emit.
    rewrite emit_fold_listeners, emit_fold_established. exact IH.
Qed.

(** X10. Observers pile up. In every world the process can reach, the
    observers on the connection are the three of connectToDatabase
    repeated once for each connection established so far: connecting
    again adds three more, and neither closing nor any event removes
    one. *)
Theorem observers_accumulate (w : W) :
  reach w ->
  listeners w = concat (replicate (established (trace w)) observers) /\
  length (listeners w) = (3 * established (trace w))%nat.
Proof using Type.
  intros Hw. pose proof (reachable_listeners w Hw) as H.
  split; [exact H|]. rewrite H at 1.
  rewrite length_concat_replicate. simpl. lia.
Qed.

Lemma emit_fold_driver nm arg (l : list (string * Observer)) (w : W) :
  driver (foldl (fun w '(n, o) =>
                   if String.eqb n nm then observe o arg w else w) w l)
  = driver w.
Proof.
  revert w. induction l as [|[n o] l IH]; intros w; [reflexivity|].
  simpl. rewrite IH. destruct (String.eqb n nm); [|reflexivity].
  now destruct o.
Qed.

Lemma emit_fold_error arg (l : list (string * Observer)) (w : W) :
  In ("error", OnError) l ->
  cachedConnection
    (foldl (fun w '(n, o) =>
              if String.eqb n "error" then observe o arg w else w) w l)
  = None.
Proof.
  revert w. induction l as [|[n o] l IH]; intros w []; simpl.
  - injection H as -> ->. simpl. now apply emit_fold_null.
  - now apply IH.
Qed.

(** A cached handle is watched by the observer of [error] too. *)
Lemma reachable_error_observed (w : W) :
  reach w -> non_null (cachedConnection w) = true ->
  In ("error", OnError) (listeners w).
Proof using Type.
  intros Hw Hc.
  pose proof (reachable_guarded readyState mongoose_connect
                connection_close w Hw Hc) as Hd.
  rewrite (reachable_listeners w Hw) in *.
  destruct (established (trace w)) as [|k]; [destruct Hd|].
  simpl. tauto.
Qed.

Lemma fresh_connect_asks (w : W) :
  cachedConnection w = None ->
  connect_calls (trace (snd (connect w))) = S (connect_calls (trace w)).
Proof using Type.
  intros Hn.
  destruct (connect_cases readyState mongoose_connect w)
    as [[Hr _]|(_ & r & w' & -> & Hcalls & _)]; [|exact Hcalls].
  unfold reuses in Hr. now rewrite Hn in Hr.
Qed.

(** X11. An [error] event empties the cache for good, whatever state the
    driver is in: in every world the process can reach the cache is null
    after the event, and the next connect asks the driver for a new
    connection even when the driver still reports that it is
    connected. *)
Theorem error_event_invalidates (w : W) (e : Thrown) (d : DriverState) :
  reach w ->
  let w1 := driver_event "error" (Some e) d w in
  cachedConnection w1 = None /\
  driver w1 = d /\
  connect_calls (trace (snd (connect w1))) = S (connect_calls (trace w1)).
Proof using Type.
  intros Hw w1.
  assert (Hnull : cachedConnection w1 = None).
  { subst w1. unfold driver_event, emit.
    destruct (cachedConnection w) as [c|] eqn:Hc.
    - apply emit_fold_error. simpl.
      apply (reachable_error_observed w Hw). now rewrite Hc.
    - now apply emit_fold_null. }
  split; [exact Hnull|]. split.
  - subst w1. unfold driver_event, emit. now rewrite emit_fold_driver.
  - now apply fresh_connect_asks.
Qed.

(** X12. A [reconnected] event does not bring the cache back. After a
    [disconnected] event followed by a [reconnected] event that finds
    the driver ready, isConnected is true but the cache is still null,
    so the next connect asks the driver for a new connection. *)
Theorem reconnect_does_not_restore (w : W) (d1 d2 : DriverState) :
  reach w ->
  readyState d2 = 1 ->
  let w2 := driver_event "reconnected" None d2
              (driver_event "disconnected" None d1 w) in
  isConnected readyState w2 = true /\
  cachedConnection w2 = None /\
  connect_calls (trace (snd (connect w2))) = S (connect_calls (trace w2)).
Proof using Type.
  intros Hw Hd w2.
  assert (H1 : cachedConnection (driver_event "disconnected" None d1 w)
               = None).
  { unfold driver_event, emit.
    destruct (cachedConnection w) as [c|] eqn:Hc.
    - apply emit_fold_disconnected. simpl.
      apply (reachable_guarded readyState mongoose_connect
               connection_close w Hw). now rewrite Hc.
    - now apply emit_fold_null. }
  assert (Hnull : cachedConnection w2 = None).
  { subst w2. unfold driver_event at 1. unfold emit.
    now apply emit_fold_null. }
  split; [|split; [exact Hnull | now apply fresh_connect_asks]].
  subst w2. unfold isConnected, driver_event at 1. unfold emit.
  rewrite emit_fold_driver. simpl. now rewrite Hd.
Qed.

(** X13. Closing twice. After a close whose teardown succeeded, or that
    found nothing cached, a second close does nothing at all. After a
    close whose teardown threw, the handle is still cached, so a second
    close calls the driver's teardown again. *)
Theorem closeConnection_twice (w : W) :
  (cachedConnection w = None \/ fst (connection_close (driver w)) = inl tt ->
     close (snd (close w)) = (inl tt, snd (close w))) /\
  (forall c e,
     cachedConnection w = Some c ->
     fst (connection_close (driver w)) = inr e ->
     close_calls (trace (snd (close (snd (close w)))))
     = S (S (close_calls (trace w)))).
Proof using Type.
  split.
  - intros H.
    destruct (close_cases connection_close w)
      as [[Hn ->]|[(c & d & _ & _ & ->)|(c & e & d & Hc & Hd & ->)]].
    + simpl. unfold closeConnection, bind, gets, ret. now rewrite Hn.
    + reflexivity.
    + destruct H as [H|H]; [congruence|]. rewrite Hd in H. discriminate.
  - intros c e Hc He.
    destruct (close_cases connection_close w)
      as [[Hn _]|[(c' & d & _ & Hd & _)|(c' & e' & d & _ & Hd & ->)]].
    + congruence.
    + rewrite Hd in He. discriminate.
    + simpl snd.
      set (w1 := record (Console (CloseError e'))
                   (set_driver d (record DriverClose w))).
      assert (Hc1 : cachedConnection w1 = Some c) by exact Hc.
      destruct (close_cases connection_close w1)
        as [[Hn _]|[(c2 & d2 & _ & _ & ->)|(c2 & e2 & d2 & _ & _ & ->)]];
        [congruence | |]; subst w1; count_lines.
Qed.

(** X14. isConnected and getConnectionStatus agree: isConnected is true
    exactly when the status names the state [connected]; the status
    names [unknown] exactly when the readiness state is none of 0, 1, 2
    and 3; and it reports the readiness state itself. *)
Theorem getConnectionStatus_consistent (w : W) :
  let s := getConnectionStatus readyState host name w in
  (isConnected readyState w = true <-> state s = "connected") /\
  (state s = "unknown" <->
   ~ (0 <= readyState (driver w) <= 3)) /\
  status_readyState s = readyState (driver w) /\
  (state s = "disconnected" <-> readyState (driver w) = 0).
Proof using Type.
  unfold getConnectionStatus, isConnected, states. simpl.
  destruct (Z.eqb_spec (readyState (driver w)) 0) as [H0|H0];
    [|destruct (Z.eqb_spec (readyState (driver w)) 1) as [H1|H1];
      [|destruct (Z.eqb_spec (readyState (driver w)) 2) as [H2|H2];
        [|destruct (Z.eqb_spec (readyState (driver w)) 3) as [H3|H3]]]];
    simpl; repeat split; try discriminate; try lia; try congruence;
    intros; try lia; try discriminate.
Qed.

End CacheLife.

Lemma connectToDatabase_twice_witness :
  fst (connectToDatabase Toy.readiness Toy.accepting Toy.warm)
  = inl (Some 7%nat) /\
  connect_calls
    (trace (snd (connectToDatabase Toy.readiness Toy.accepting Toy.warm)))
  = connect_calls (trace Toy.warm).
Proof.
  destruct (connectToDatabase_twice Toy.readiness Toy.accepting
              Toy.cold 7%nat 1 eq_refl eq_refl eq_refl)
    as (H1 & H2 & _).
  exact (conj H1 H2).
Defined.

Lemma observers_accumulate_witness :
  let w2 := snd (connectToDatabase Toy.readiness Toy.accepting
                   (driver_event "disconnected" None 0 Toy.warm)) in
  length (listeners w2) = 6%nat.
Proof.
  intros w2.
  rewrite (proj2 (observers_accumulate Toy.readiness Toy.accepting
                    Toy.closing w2
                    (reach_connect _ _ _ _
                       (reach_event _ _ _ "disconnected" None 0 _
                          (reach_connect _ _ _ _
                             (reach_initial _ _ _ 0 Toy.uri)))))).
  reflexivity.
Defined.

Lemma error_event_invalidates_witness :
  let w1 := driver_event "error" (Some (Error "ECONNRESET")) 1 Toy.warm in
  cachedConnection w1 = None /\ isConnected Toy.readiness w1 = true /\
  connect_calls
    (trace (snd (connectToDatabase Toy.readiness Toy.accepting w1)))
  = S (connect_calls (trace w1)).
Proof.
  destruct (error_event_invalidates Toy.readiness Toy.accepting Toy.closing
              Toy.warm (Error "ECONNRESET") 1
              (reach_connect _ _ _ _ (reach_initial _ _ _ 0 Toy.uri)))
    as (H1 & _ & H3).
  split; [exact H1|]. split; [reflexivity | exact H3].
Defined.

Lemma reconnect_does_not_restore_witness :
  let w2 := driver_event "reconnected" None 1
              (driver_event "disconnected" None 0 Toy.warm) in
  isConnected Toy.readiness w2 = true /\ cachedConnection w2 = None.
Proof.
  destruct (reconnect_does_not_restore Toy.readiness Toy.accepting
              Toy.closing Toy.warm 0 1
              (reach_connect _ _ _ _ (reach_initial _ _ _ 0 Toy.uri))
              eq_refl) as (H1 & H2 & _).
  exact (conj H1 H2).
Defined.

Lemma closeConnection_twice_witness :
  closeConnection Toy.closing (snd (closeConnection Toy.closing Toy.warm))
  = (inl tt, snd (closeConnection Toy.closing Toy.warm)) /\
  close_calls
    (trace (snd (closeConnection Toy.failing_close
                   (snd (closeConnection Toy.failing_close Toy.warm)))))
  = 2%nat.
Proof.
  split.
  - apply (proj1 (closeConnection_twice Toy.closing Toy.warm)).
    right. reflexivity.
  - apply (proj2 (closeConnection_twice Toy.failing_close Toy.warm)
             7%nat (Error "topology was destroyed")); reflexivity.
Defined.

(** ** The database wrapper on the remaining outcomes *)

Section WrapperMore.

Context {Handle DriverState : Type}.
Variable readyState : DriverState -> Z.
Variable mongoose_connect :
  option string -> ConnectionOptions -> DriverState ->
  (Handle + Thrown) * DriverState.

Abbreviation C := (@Ctx Handle DriverState).
Abbreviation connecting :=
  (@in_world Handle DriverState _
     (connectToDatabase readyState mongoose_connect)).
Abbreviation wrapped := (withDatabase readyState mongoose_connect).
Abbreviation reaching := (caught readyState mongoose_connect).

(** X15. When connect succeeds and the handler returns, the wrapper is
    the handler run after connect: the same value, the same response,
    and nothing written by the wrapper itself. *)
Theorem withDatabase_transparent (fn : Handler) (req : Request) (c : C)
    conn v :
  fst (connecting c) = inl conn ->
  fst (fn req (snd (connecting c))) = inl v ->
  wrapped fn req c = fn req (snd (connecting c)).
Proof.
  unfold withDatabase, try_catch, bind.
  destruct (connecting c) as [[conn'|e] c1]; simpl; [|discriminate].
  intros _. destruct (fn req c1) as [[v'|e] c2]; simpl; [|discriminate].
  reflexivity.
Qed.

Lemma withDatabase_caught (fn : Handler) req c e c' :
  reaching fn req c = Some (e, c') ->
  wrapped fn req c
  = match e with
    | Error message => (inl RetResponse, answered message e c')
    | NoMessage =>
        (inl RetResponse,
         {| world := record (Console (DatabaseOperationError e)) (world c');
            exchange :=
              on_response
                (fun res => json (database_failure VUndefined)
                              (status 500 res))
                (exchange c') |})
    | ThrownNull =>
        (inr (Error "Cannot read properties of null (reading 'message')"),
         {| world := record (Console (DatabaseOperationError e)) (world c');
            exchange := on_response (status 500) (exchange c') |})
    | ThrownUndefined =>
        (inr (Error
                "Cannot read properties of undefined (reading 'message')"),
         {| world := record (Console (DatabaseOperationError e)) (world c');
            exchange := on_response (status 500) (exchange c') |})
    end.
Proof.
  unfold caught, withDatabase, try_catch, bind.
  destruct (connecting c) as [[conn|e1] c1]; simpl.
  - destruct (fn req c1) as [[v|e2] c2]; simpl; [discriminate|].
    intros [= -> ->]. now destruct e.
  - intros [= -> ->]. now destruct e.
Qed.

Lemma withDatabase_not_caught (fn : Handler) req c :
  reaching fn req c = None -> exists v, fst (wrapped fn req c) = inl v.
Proof.
  unfold caught, withDatabase, try_catch, bind.
  destruct (connecting c) as [[conn|e1] c1]; simpl; [|discriminate].
  destruct (fn req c1) as [[v|e2] c2]; simpl; [|discriminate].
  intros _. now exists v.
Qed.

(** X16. The wrapper itself rejects exactly when what was thrown, by
    connect or by the handler, is null or undefined: reading its message
    throws inside the catch block. The status is 500 by then, but no
    body was sent: the body is the one the response had when the value
    was thrown. *)
Theorem withDatabase_rejects_iff (fn : Handler) (req : Request) (c : C) :
  ((exists te, fst (wrapped fn req c) = inr te) <->
   (exists e c', reaching fn req c = Some (e, c') /\
                 has_no_properties e = true)) /\
  (forall e c',
     reaching fn req c = Some (e, c') ->
     has_no_properties e = true ->
     statusCode (response (exchange (snd (wrapped fn req c)))) = 500 /\
     body (response (exchange (snd (wrapped fn req c))))
     = body (response (exchange c')) /\
     nextCalls (exchange (snd (wrapped fn req c)))
     = nextCalls (exchange c')).
Proof.
  split.
  - destruct (reaching fn req c) as [[e c']|] eqn:Hc.
    + rewrite (withDatabase_caught fn req c e c' Hc). split.
      * intros [te Hte]. exists e, c'. split; [reflexivity|].
        destruct e; simpl in Hte; try discriminate; reflexivity.
      * intros (e' & c'' & [= <- <-] & He).
        destruct e; simpl in He; try discriminate; eexists; reflexivity.
    + destruct (withDatabase_not_caught fn req c Hc) as [v Hv]. split.
      * intros [te Hte]. rewrite Hv in Hte. discriminate.
      * intros (e & c' & H & _). discriminate.
  - intros e c' Hc He.
    rewrite (withDatabase_caught fn req c e c' Hc).
    destruct e; simpl in He; try discriminate; repeat split.
Qed.

End WrapperMore.

Lemma withDatabase_transparent_witness :
  withDatabase Toy.readiness Toy.accepting
    (fun req => ret (RetValue (VStr "ok")))
    (request "/api/users") (fresh_context Toy.cold)
  = (inl (RetValue (VStr "ok")), fresh_context Toy.warm).
Proof.
  rewrite (withDatabase_transparent Toy.readiness Toy.accepting
             (fun req => ret (RetValue (VStr "ok")))
             (request "/api/users") (fresh_context Toy.cold)
             (Some 7%nat) (RetValue (VStr "ok")) eq_refl eq_refl).
  reflexivity.
Defined.

Lemma withDatabase_rejects_iff_witness :
  let out := withDatabase Toy.readiness Toy.accepting
               (fun req => throw ThrownNull)
               (request "/api/users") (fresh_context Toy.cold) in
  statusCode (response (exchange (snd out))) = 500 /\
  body (response (exchange (snd out))) = None /\
  nextCalls (exchange (snd out)) = 0%nat.
Proof.
  apply (proj2 (withDatabase_rejects_iff Toy.readiness Toy.accepting
                  (fun req => throw ThrownNull)
                  (request "/api/users") (fresh_context Toy.cold))
           ThrownNull (fresh_context Toy.warm)); reflexivity.
Defined.

(** ** The wrappers that hand failures to [next] *)

Section MiddlewareFacts.

Context {Handle DriverState : Type}.
Variable readyState : DriverState -> Z.
Variable mongoose_connect :
  option string -> ConnectionOptions -> DriverState ->
  (Handle + Thrown) * DriverState.
Variable Date_now : @Middleware.Env Handle DriverState -> Z.

Abbreviation E := (@Middleware.Env Handle DriverState).
Abbreviation L := (@Middleware.Loop Handle DriverState).
Abbreviation Route := (@Middleware.Route Handle DriverState).
Abbreviation Awaited := (@Middleware.Awaited Handle DriverState).
Abbreviation asyncHandler := (@Middleware.asyncHandler Handle DriverState).
Abbreviation catchAsync := (@Middleware.catchAsync Handle DriverState).
Abbreviation monitored := (Middleware.withPerformanceMonitoring Date_now).
Abbreviation guarded :=
  (Middleware.withDatabase readyState mongoose_connect).
Abbreviation combined :=
  (Middleware.withDatabaseAndMonitoring readyState mongoose_connect
     Date_now).
Abbreviation connected :=
  (@Middleware.on_ctx Handle DriverState _
     (in_world (connectToDatabase readyState mongoose_connect))).

Import Middleware.

Lemma quiesce_attach (job : E -> E) (l : L) :
  quiesce (attach job l) = job (quiesce l).
Proof. unfold quiesce, attach. simpl. now rewrite foldl_app. Qed.

(** X17. asyncHandler on a function that returns a promise: the call
    returns undefined and never throws, whatever becomes of the promise.
    Once the promise has done its work, a rejection has been handed to
    [next], once and with the error itself, and nothing else is changed;
    after a fulfilment [next] was not called at all. The only way
    asyncHandler throws is that the function throws before it returns. *)
Theorem asyncHandler_forwards (fn : Route) (req : Request) (l : L) :
  (forall e, fst (asyncHandler fn req l) = inr e <->
             fst (fn req (env l)) = Threw e) /\
  (forall rest s,
     fn req (env l) = (Promised rest, s) ->
     fst (asyncHandler fn req l) = inl (RetValue VUndefined) /\
     env (snd (asyncHandler fn req l)) = s /\
     (scheduled l = [] ->
      (forall e s',
         rest s = (inr e, s') ->
         let final := quiesce (snd (asyncHandler fn req l)) in
         forwarded final = (forwarded s' ++ [e])%list /\
         nextCalls (exchange (ctx final))
         = S (nextCalls (exchange (ctx s'))) /\
         response (exchange (ctx final)) = response (exchange (ctx s')) /\
         world (ctx final) = world (ctx s') /\
         monitor final = monitor s') /\
      (forall v s',
         rest s = (inl v, s') ->
         quiesce (snd (asyncHandler fn req l)) = s'))).
Proof.
  split.
  - intros e. unfold Middleware.asyncHandler.
    destruct (fn req (env l)) as [[e'|v|rest] s]; simpl;
      split; intros H; try discriminate; congruence.
  - intros rest s Hfn. unfold Middleware.asyncHandler. rewrite Hfn.
    split; [reflexivity|]. split; [reflexivity|].
    intros Hidle. simpl snd. rewrite quiesce_attach.
    unfold quiesce, on_env. rewrite Hidle. simpl. unfold catch_next.
    split.
    + intros e s' Hr. rewrite Hr. repeat split.
    + intros v s' Hr. now rewrite Hr.
Qed.

(** X18. catchAsync and asyncHandler do the same on every function that
    throws or returns a promise, and differ exactly when the function
    returns a value that is no promise: asyncHandler returns undefined,
    catchAsync throws, after the function has done what it does. *)
Theorem catchAsync_differs (fn : Route) (req : Request) (l : L) :
  (catchAsync fn req l = asyncHandler fn req l <->
   forall v, fst (fn req (env l)) <> Returned v) /\
  (forall v,
     fst (fn req (env l)) = Returned v ->
     fst (asyncHandler fn req l) = inl (RetValue VUndefined) /\
     fst (catchAsync fn req l) = inr (no_catch v) /\
     snd (catchAsync fn req l) = snd (asyncHandler fn req l) /\
     env (snd (catchAsync fn req l)) = snd (fn req (env l))).
Proof.
  unfold Middleware.catchAsync, Middleware.asyncHandler.
  destruct (fn req (env l)) as [[e|v|rest] s]; simpl; split.
  - split; [intros _ v; discriminate | reflexivity].
  - intros v; discriminate.
  - split; [discriminate | intros H; now destruct (H v)].
  - intros v' [= <-]. repeat split.
  - split; [intros _ v; discriminate | reflexivity].
  - intros v; discriminate.
Qed.

Lemma monitored_outcome (fn : Awaited) (req : Request) (l : L) :
  fst (monitored fn req l) = fst (fn req l) /\
  ctx (env (snd (monitored fn req l))) = ctx (env (snd (fn req l))) /\
  forwarded (env (snd (monitored fn req l)))
  = forwarded (env (snd (fn req l))) /\
  scheduled (snd (monitored fn req l)) = scheduled (snd (fn req l)) /\
  monitor (env (snd (monitored fn req l)))
  = (monitor (env (snd (fn req l)))
     ++ match fst (fn req l) with
        | inl _ =>
            if 1000 <? Date_now (env (snd (fn req l))) - Date_now (env l)
            then [SlowRequest (method req) (path req)
                    (Date_now (env (snd (fn req l))) - Date_now (env l))]
            else []
        | inr e =>
            [RequestFailed (method req) (path req)
               (Date_now (env (snd (fn req l))) - Date_now (env l)) e]
        end)%list.
Proof.
  unfold Middleware.withPerformanceMonitoring, try_catch, bind, now, gets,
    log, modify, ret, throw, on_env.
  destruct (fn req l) as [[v|e] l'] eqn:Hfn; simpl.
  - destruct (Z.ltb_spec 1000 (Date_now (env l') - Date_now (env l)));
      simpl; repeat split; now rewrite app_nil_r.
  - repeat split.
Qed.


Lemma guarded_connect_fails (fn : Awaited) req (l : L) message :
  fst (connected l) = inr (Error message) ->
  guarded fn req l
  = (inl RetResponse,
     on_env (fun s => {| ctx := answered message (Error message) (ctx s);
                         forwarded := forwarded s;
                         monitor := monitor s |})
            (snd (connected l))).
Proof.
  unfold Middleware.withDatabase, try_catch, bind.
  destruct (connected l) as [[conn|e] l1]; simpl; [discriminate|].
  intros [= ->]. reflexivity.
Qed.

Lemma guarded_connected (fn : Awaited) req (l : L) conn :
  fst (connected l) = inl conn ->
  guarded fn req l
  = match fn req (snd (connected l)) with
    | (inl v, l') => (inl v, l')
    | (inr error, l') =>
        ((on_ctx (in_world (console (DatabaseOperationError error))) ;;;
          on_ctx (respond (status 500)) ;;;
          let* message := on_ctx (message_of error) in
          on_ctx (respond (json (database_failure message))) ;;;
          ret RetResponse)%effect) l'
    end.
Proof.
  unfold Middleware.withDatabase, try_catch, bind.
  destruct (connected l) as [[conn'|e] l1]; simpl; [|discriminate].
  reflexivity.
Qed.

(** The wrapper on the loop is the wrapper on the context. *)
Lemma withDatabase_on_loop (fn : Handler) (req : Request) (l : L) :
  guarded (on_loop fn) req l
  = on_ctx (Wrappers.withDatabase readyState mongoose_connect fn req) l.
Proof.
  unfold Middleware.withDatabase, Wrappers.withDatabase, on_loop, on_ctx,
    zoom, try_catch, bind, ret. simpl.
  destruct (in_world _ (ctx (env l))) as [[conn|e] c1]; simpl.
  - destruct (fn req c1) as [[v|e] c2]; simpl; [reflexivity|].
    unfold respond, modify, in_world, zoom, console, record. simpl.
    destruct e; reflexivity.
  - unfold respond, modify, in_world, zoom, console, record. simpl.
    destruct e; reflexivity.
Qed.

Lemma connected_frame (l : L) :
  forwarded (env (snd (connected l))) = forwarded (env l) /\
  monitor (env (snd (connected l))) = monitor (env l) /\
  scheduled (snd (connected l)) = scheduled l /\
  exchange (ctx (env (snd (connected l)))) = exchange (ctx (env l)).
Proof.
  unfold on_ctx, in_world, zoom.
  destruct (connectToDatabase _ _ _). repeat split.
Qed.

Lemma guarded_promised (fn : Route) req (l : L) conn rest s :
  fst (connected l) = inl conn ->
  fn req (env (snd (connected l))) = (Promised rest, s) ->
  guarded (asyncHandler fn) req l
  = (inl (RetValue VUndefined),
     attach (catch_next rest) (on_env (fun _ => s) (snd (connected l)))).
Proof.
  intros Hc Hfn.
  rewrite (guarded_connected (asyncHandler fn) req l conn Hc).
  unfold Middleware.asyncHandler. rewrite Hfn. reflexivity.
Qed.

Lemma guarded_promised_promptly (fn : Route) req (l : L) conn rest s :
  fst (connected l) = inl conn ->
  fn req (env (snd (connected l))) = (Promised rest, s) ->
  guarded (promptly (asyncHandler fn)) req l
  = (inl (RetValue VUndefined),
     {| env := catch_next rest
                 (quiesce (on_env (fun _ => s) (snd (connected l))));
        scheduled := [] |}).
Proof.
  intros Hc Hfn.
  rewrite (guarded_connected (promptly (asyncHandler fn)) req l conn Hc).
  unfold promptly, Middleware.asyncHandler. rewrite Hfn.
  now rewrite quiesce_attach.
Qed.

(** X20. The combined wrapper on a route whose promise rejects. When
    connect succeeds and the route returns a promise that rejects with
    [e], the wrapper fulfils with undefined, and once everything has run
    the rejection has been handed to [next], once and with the error
    itself, and the response is as the route left it: the database
    wrapper has not answered with its 500 envelope. This holds whether
    the reaction attached by asyncHandler runs before the two wrappers go
    on or after they have returned. *)
Theorem withDatabaseAndMonitoring_async_failure (fn : Route)
    (req : Request) (l : L) conn rest s e c' f' :
  fst (connected l) = inl conn ->
  fn req (env (snd (connected l))) = (Promised rest, s) ->
  scheduled l = [] ->
  (forall s0, ctx s0 = ctx s -> forwarded s0 = forwarded s ->
     exists s1, rest s0 = (inr e, s1) /\ ctx s1 = c' /\ forwarded s1 = f') ->
  forall out,
    out = combined fn req l \/
    out = monitored (guarded (promptly (asyncHandler fn))) req l ->
    fst out = inl (RetValue VUndefined) /\
    forwarded (quiesce (snd out)) = (f' ++ [e])%list /\
    ctx (quiesce (snd out))
    = {| world := world c'; exchange := next (exchange c') |}.
Proof.
  intros Hc Hfn Hidle Hrest out Hout.
  destruct (connected_frame l) as (F1 & F2 & F3 & F4).
  rewrite Hidle in F3.
  destruct Hout as [-> | ->].
  - unfold Middleware.withDatabaseAndMonitoring.
    destruct (monitored_outcome (guarded (asyncHandler fn)) req l)
      as (H1 & H2 & H3 & H4 & _).
    rewrite (guarded_promised fn req l conn rest s Hc Hfn) in H1, H2, H3, H4.
    simpl in H1, H2, H3, H4. rewrite F3 in H4. simpl in H4.
    split; [exact H1|].
    unfold quiesce. rewrite H4. simpl. unfold catch_next.
    destruct (Hrest _ H2 H3) as (s1 & -> & <- & <-).
    split; reflexivity.
  - destruct (monitored_outcome (guarded (promptly (asyncHandler fn)))
                req l) as (H1 & H2 & H3 & H4 & _).
    rewrite (guarded_promised_promptly fn req l conn rest s Hc Hfn)
      in H1, H2, H3, H4.
    simpl in H1, H2, H3, H4.
    unfold quiesce, on_env in H2, H3. rewrite F3 in H2, H3.
    simpl in H2, H3. unfold catch_next in H2, H3.
    destruct (Hrest s eq_refl eq_refl) as (s1 & Hr & <- & <-).
    rewrite Hr in H2, H3.
    split; [exact H1|].
    unfold quiesce. rewrite H4. simpl. now rewrite H2, H3.
Qed.

Lemma monitored_congruence (f g : Awaited) req (l : L) :
  f req l = g req l -> monitored f req l = monitored g req l.
Proof.
  unfold Middleware.withPerformanceMonitoring, try_catch, bind.
  intros H. simpl. now rewrite H.
Qed.

(** X21. The combined wrapper when connect fails with an error that has
    a message: the route is not run at all, the wrapper fulfils with the
    response, answered with status 500 and the envelope of the database
    wrapper, nothing is handed to [next] or left to run, and the monitor
    reports no failure. *)
Theorem withDatabaseAndMonitoring_connection_failure (fn : Route)
    (req : Request) (l : L) message :
  fst (connected l) = inr (Error message) ->
  let out := combined fn req l in
  (forall fn' : Route, combined fn' req l = out) /\
  fst out = inl RetResponse /\
  statusCode (response (exchange (ctx (env (snd out))))) = 500 /\
  body (response (exchange (ctx (env (snd out)))))
  = Some [("success", VBool false);
          ("error", VStr "Database operation failed");
          ("message", VStr message)] /\
  nextCalls (exchange (ctx (env (snd out))))
  = nextCalls (exchange (ctx (env l))) /\
  forwarded (env (snd out)) = forwarded (env l) /\
  scheduled (snd out) = scheduled l /\
  (forall line, In line (monitor (env (snd out))) ->
     In line (monitor (env l)) \/
     exists d, line = SlowRequest (method req) (path req) d /\ 1000 < d).
Proof.
  intros Hc out. subst out.
  unfold Middleware.withDatabaseAndMonitoring. split.
  - intros fn'. apply monitored_congruence.
    now rewrite !(guarded_connect_fails _ req l message Hc).
  - destruct (monitored_outcome (guarded (asyncHandler fn)) req l)
      as (H1 & H2 & H3 & H4 & H5).
    destruct (connected_frame l) as (F1 & F2 & F3 & F4).
    rewrite (guarded_connect_fails _ req l message Hc) in *.
    simpl in *. rewrite H1, H2, H3, H4. simpl.
    rewrite F4. repeat split; try assumption.
    intros line. rewrite H5, in_app_iff, F2.
    intros [Hl|Hl]; [now left|right].
    match type of Hl with
    | In _ (if 1000 <? ?d then _ else _) =>
        destruct (Z.ltb_spec 1000 d); [|destruct Hl]
    end.
    destruct Hl as [<-|[]]. eexists. split; [reflexivity | assumption].
Qed.

Lemma guarded_sync_throw (fn : Route) req (l : L) conn message s :
  fst (connected l) = inl conn ->
  fn req (env (snd (connected l))) = (Threw (Error message), s) ->
  guarded (asyncHandler fn) req l
  = (inl RetResponse,
     on_env (fun _ => {| ctx := answered message (Error message) (ctx s);
                         forwarded := forwarded s;
                         monitor := monitor s |})
            (snd (connected l))).
Proof.
  intros Hc Hfn.
  rewrite (guarded_connected (asyncHandler fn) req l conn Hc).
  unfold Middleware.asyncHandler. rewrite Hfn. reflexivity.
Qed.

(** X22. The combined wrapper on a route that throws before it returns.
    asyncHandler lets the throw through, so it is the database wrapper
    that catches it: the wrapper fulfils with the response, answered
    with status 500 and the envelope carrying the message, and [next] is
    not called; the same error coming from a rejected promise would go
    to [next] instead. *)
Theorem withDatabaseAndMonitoring_sync_throw (fn : Route)
    (req : Request) (l : L) conn message s :
  fst (connected l) = inl conn ->
  fn req (env (snd (connected l))) = (Threw (Error message), s) ->
  let out := combined fn req l in
  fst out = inl RetResponse /\
  ctx (env (snd out)) = answered message (Error message) (ctx s) /\
  forwarded (env (snd out)) = forwarded s /\
  scheduled (snd out) = scheduled l /\
  (forall line, In line (monitor (env (snd out))) ->
     In line (monitor s) \/
     exists d, line = SlowRequest (method req) (path req) d /\ 1000 < d).
Proof.
  intros Hc Hfn out. subst out.
  unfold Middleware.withDatabaseAndMonitoring.
  destruct (monitored_outcome (guarded (asyncHandler fn)) req l)
    as (H1 & H2 & H3 & H4 & H5).
  destruct (connected_frame l) as (F1 & F2 & F3 & F4).
  rewrite (guarded_sync_throw fn req l conn message s Hc Hfn) in *.
  simpl in H1, H2, H3, H4, H5.
  split; [exact H1|]. split; [exact H2|]. split; [exact H3|].
  split; [now rewrite H4|].
  intros line. rewrite H5, in_app_iff.
  intros [Hl|Hl]; [now left|right].
  match type of Hl with
  | In _ (if 1000 <? ?d then _ else _) =>
      destruct (Z.ltb_spec 1000 d); [|destruct Hl]
  end.
  destruct Hl as [<-|[]]. eexists. split; [reflexivity | assumption].
Qed.

End MiddlewareFacts.

Lemma asyncHandler_forwards_witness :
  let out := Middleware.asyncHandler rejecting (request "/api/users")
               (idle (fresh_env Toy.warm)) in
  fst out = inl (RetValue VUndefined) /\
  Middleware.forwarded (Middleware.quiesce (snd out)) = [Error "boom"].
Proof.
  destruct (proj2 (asyncHandler_forwards rejecting (request "/api/users")
                     (idle (fresh_env Toy.warm)))
              (throw (Error "boom")) (fresh_env Toy.warm) eq_refl)
    as (H1 & _ & H3).
  split; [exact H1|].
  exact (proj1 (proj1 (H3 eq_refl) (Error "boom") (fresh_env Toy.warm)
                  eq_refl)).
Defined.

Lemma catchAsync_differs_witness :
  fst (Middleware.asyncHandler returning (request "/api/users")
         (idle (fresh_env Toy.warm)))
  = inl (RetValue VUndefined) /\
  fst (Middleware.catchAsync returning (request "/api/users")
         (idle (fresh_env Toy.warm)))
  = inr (Error "Cannot read properties of undefined (reading 'catch')").
Proof.
  destruct (proj2 (catchAsync_differs returning (request "/api/users")
                     (idle (fresh_env Toy.warm)))
              (RetValue VUndefined) eq_refl) as (H1 & H2 & _).
  exact (conj H1 H2).
Defined.


Lemma withDatabaseAndMonitoring_async_failure_witness :
  let out := Middleware.withDatabaseAndMonitoring Toy.readiness
               Toy.accepting trace_clock rejecting
               (request "/api/users") (idle (fresh_env Toy.cold)) in
  fst out = inl (RetValue VUndefined) /\
  Middleware.forwarded (Middleware.quiesce (snd out)) = [Error "boom"] /\
  Middleware.ctx (Middleware.quiesce (snd out))
  = {| world := Toy.warm; exchange := next (start fresh) |}.
Proof.
  intros out.
  apply (withDatabaseAndMonitoring_async_failure Toy.readiness
           Toy.accepting trace_clock rejecting (request "/api/users")
           (idle (fresh_env Toy.cold)) (Some 7%nat)
           (throw (Error "boom")) (fresh_env Toy.warm) (Error "boom")
           (fresh_context Toy.warm) [] eq_refl eq_refl eq_refl).
  - intros s0 H1 H2. exists s0. split; [reflexivity|].
    split; assumption.
  - left. reflexivity.
Defined.

Lemma withDatabaseAndMonitoring_connection_failure_witness :
  let out := Middleware.withDatabaseAndMonitoring Toy.readiness
               Toy.refusing trace_clock rejecting
               (request "/api/users") (idle (fresh_env Toy.cold)) in
  fst out = inl RetResponse /\
  statusCode
    (response (exchange (Middleware.ctx (Middleware.env (snd out))))) = 500 /\
  Middleware.forwarded (Middleware.quiesce (snd out)) = [].
Proof.
  intros out.
  destruct (withDatabaseAndMonitoring_connection_failure Toy.readiness
              Toy.refusing trace_clock rejecting (request "/api/users")
              (idle (fresh_env Toy.cold)) "ECONNREFUSED" eq_refl)
    as (_ & H2 & H3 & _ & _ & H6 & H7 & _).
  split; [exact H2|]. split; [exact H3|].
  fold out in H6, H7. unfold Middleware.quiesce. rewrite H7. exact H6.
Defined.

Lemma withDatabaseAndMonitoring_sync_throw_witness :
  let out := Middleware.withDatabaseAndMonitoring Toy.readiness
               Toy.accepting trace_clock throwing
               (request "/api/users") (idle (fresh_env Toy.cold)) in
  fst out = inl RetResponse /\
  body (response (exchange (Middleware.ctx (Middleware.env (snd out)))))
  = Some (database_failure (VStr "boom")) /\
  Middleware.forwarded (Middleware.env (snd out)) = [].
Proof.
  intros out.
  destruct (withDatabaseAndMonitoring_sync_throw Toy.readiness
              Toy.accepting trace_clock throwing (request "/api/users")
              (idle (fresh_env Toy.cold)) (Some 7%nat) "boom"
              (fresh_env Toy.warm) eq_refl eq_refl)
    as (H1 & H2 & H3 & _).
  split; [exact H1|]. fold out in H2, H3.
  rewrite H2, H3. split; reflexivity.
Defined.
